(** * Dispersion analysis of a periodic cell: the sweep of [main]

    A shallow embedding of [examples/linear_elasticity/dispersion_analysis.py]:
    the symmetry diagnostic [_max_diff_csr], the per-step assembly of the
    complex matrix [mtx_a], the loop over the wave magnitudes and the
    normalisation of the wave direction.

    Layers:
    - scalars ([Scalar]): the arithmetic of a numpy dtype, instantiated by
      binary64 floats and, for exact arithmetic, by the integers;
    - values: sparse matrices as finite maps of their stored entries, with
      the operators the script applies to them;
    - objects: a store of matrix objects, in which every operator allocates
      its result;
    - the sweep: a state and exception monad over the store and the trace of
      calls to the collaborators ([output], the eigensolver, [log],
      [make_full_vec], [save_state]). *)

From Stdlib Require Import ZArith Floats Lia List Ring.
From stdpp Require Import base option list gmap fin_maps strings pretty.

Open Scope nat_scope.

(* ===================================================================== *)
(** ** Scalars *)
(* ===================================================================== *)

(** The operations of a real numpy dtype that the script uses. *)
Class Scalar (F : Type) := {
  szero : F;
  sone : F;
  sadd : F -> F -> F;
  smul : F -> F -> F;
  ssub : F -> F -> F;
  sopp : F -> F;
  sabs : F -> F;
  smax : F -> F -> F;         (* numpy.maximum *)
  snonzero : F -> bool;       (* x != 0 *)
  ssqrt : F -> F              (* numpy.sqrt *)
}.

(** Exact arithmetic: the scalars form a commutative ring and [x != 0]
    decides equality with zero. *)
Class ScalarLaws (F : Type) `{Scalar F} : Prop := {
  s_ring : ring_theory szero sone sadd smul ssub sopp (@eq F);
  s_nonzero : forall x : F, snonzero x = false <-> x = szero
}.

(** binary64, as numpy's float64. [maximum] propagates NaN. *)
Definition float_max (a b : float) : float :=
  if PrimFloat.is_nan a then a
  else if PrimFloat.is_nan b then b
  else if PrimFloat.ltb a b then b else a.

#[export] Instance float_scalar : Scalar float := {|
  szero := 0%float;
  sone := 1%float;
  sadd := PrimFloat.add;
  smul := PrimFloat.mul;
  ssub := PrimFloat.sub;
  sopp := PrimFloat.opp;
  sabs := PrimFloat.abs;
  smax := float_max;
  snonzero := fun x => negb (PrimFloat.eqb x 0%float);
  ssqrt := PrimFloat.sqrt
|}.

(** The integers: entries and magnitudes taken in exact arithmetic. *)
#[export] Instance Z_scalar : Scalar Z := {|
  szero := 0%Z;
  sone := 1%Z;
  sadd := Z.add;
  smul := Z.mul;
  ssub := Z.sub;
  sopp := Z.opp;
  sabs := Z.abs;
  smax := Z.max;
  snonzero := fun x => negb (Z.eqb x 0);
  ssqrt := Z.sqrt
|}.

(** Complex numbers over a scalar type (numpy's complex128 over float64). *)
Record complex (F : Type) := Cx { re : F; im : F }.
Arguments Cx {F} re im.
Arguments re {F} _.
Arguments im {F} _.

Section Complex.
Context {F : Type} `{Scalar F}.

Definition of_real (x : F) : complex F := Cx x szero.
Definition c_j : complex F := Cx szero sone.                (* 1j *)
Definition cadd (a b : complex F) : complex F :=
  Cx (sadd (re a) (re b)) (sadd (im a) (im b)).
Definition csub (a b : complex F) : complex F :=
  Cx (ssub (re a) (re b)) (ssub (im a) (im b)).
Definition cmul (a b : complex F) : complex F :=
  Cx (ssub (smul (re a) (re b)) (smul (im a) (im b)))
     (sadd (smul (re a) (im b)) (smul (im a) (re b))).
Definition copp (a : complex F) : complex F := Cx (sopp (re a)) (sopp (im a)).
Definition conj (a : complex F) : complex F := Cx (re a) (sopp (im a)).
Definition cnonzero (a : complex F) : bool := snonzero (re a) || snonzero (im a).
Definition cabs (a : complex F) : F :=
  ssqrt (sadd (smul (re a) (re a)) (smul (im a) (im a))).
End Complex.

(** What a sparse matrix needs of its entries: the two dtypes of the script. *)
Class Dtype (F E : Type) := {
  dzero : E;
  dadd : E -> E -> E;
  dsub : E -> E -> E;
  dopp : E -> E;
  dnonzero : E -> bool;
  dabs : E -> F               (* numpy.abs: a real array for both dtypes *)
}.

#[export] Instance real_dtype {F} `{Scalar F} : Dtype F F := {|
  dzero := szero; dadd := sadd; dsub := ssub; dopp := sopp;
  dnonzero := snonzero; dabs := sabs
|}.

#[export] Instance complex_dtype {F} `{Scalar F} : Dtype F (complex F) := {|
  dzero := of_real szero; dadd := cadd; dsub := csub; dopp := copp;
  dnonzero := cnonzero; dabs := cabs
|}.

(* ===================================================================== *)
(** ** Exceptions *)
(* ===================================================================== *)

Inductive exn :=
| ValueError           (* scipy: inconsistent shapes; numpy: max of an empty array *)
| TypeError            (* an operand of the wrong kind *)
| IndexError           (* an index out of bounds *)
| ConvergenceError     (* eigensolver: iteration budget exhausted *)
| SingularMatrixError. (* eigensolver: singular shifted operator *)

Inductive result (A : Type) :=
| Ok (a : A)
| Raise (e : exn).
Arguments Ok {A} a.
Arguments Raise {A} e.

#[export] Instance exn_eq_dec : EqDecision exn.
Proof. solve_decision. Defined.

(* ===================================================================== *)
(** ** Sparse matrices as values *)
(* ===================================================================== *)

(** A sparse matrix: its shape and its stored entries. A stored entry may
    be zero; an entry that is not stored reads as zero. *)
Record spmatrix (E : Type) := SpMatrix {
  shape : nat * nat;
  entries : gmap (nat * nat) E
}.
Arguments SpMatrix {E} shape entries.
Arguments shape {E} _.
Arguments entries {E} _.

Section Sparse.
Context {F : Type} `{Scalar F}.

Section Generic.
Context {E : Type} `{Dtype F E}.

(** [m[i, j]] *)
Definition mat_get (m : spmatrix E) (i j : nat) : E :=
  default dzero (entries m !! (i, j)).

(** [m.data]: the stored values. *)
Definition mat_data (m : spmatrix E) : list E :=
  (map_to_list (entries m)).*2.

(** One entry of [csr_binop_csr]: the operator is applied where either
    operand stores an entry, and the result is stored when it is not zero. *)
Definition binop_entry (op : E -> E -> E) (a b : option E) : option E :=
  match a, b with
  | None, None => None
  | _, _ =>
      let r := op (default dzero a) (default dzero b) in
      if dnonzero r then Some r else None
  end.

Definition sp_binop (op : E -> E -> E) (m1 m2 : spmatrix E)
  : result (spmatrix E) :=
  if decide (shape m1 = shape m2)
  then Ok (SpMatrix (shape m1) (merge (binop_entry op) (entries m1) (entries m2)))
  else Raise ValueError.

Definition sp_add := sp_binop dadd.                      (* m1 + m2 *)
Definition sp_sub := sp_binop dsub.                      (* m1 - m2 *)

(** [-m]: the same structure, every stored value negated. *)
Definition sp_neg (m : spmatrix E) : spmatrix E :=
  SpMatrix (shape m) (dopp <$> entries m).

(** [m.T] *)
Definition sp_T (m : spmatrix E) : spmatrix E :=
  SpMatrix (prod_swap (shape m)) (kmap prod_swap (entries m)).
End Generic.

(** [c * m] for a real scalar: [m.data * c] on the same structure. *)
Definition sp_scale (c : F) (m : spmatrix F) : spmatrix F :=
  SpMatrix (shape m) ((fun x => smul x c) <$> entries m).

(** The real data seen as complex data (numpy's upcast). *)
Definition sp_upcast (m : spmatrix F) : spmatrix (complex F) :=
  SpMatrix (shape m) (of_real <$> entries m).

(** [c * m] for a complex scalar and a real matrix: the data is upcast
    and multiplied. *)
Definition sp_cscale (c : complex F) (m : spmatrix F) : spmatrix (complex F) :=
  SpMatrix (shape m) ((fun x => cmul (of_real x) c) <$> entries m).

(** [m.conj()] and [m.H = m.transpose().conj()] *)
Definition sp_conj (m : spmatrix (complex F)) : spmatrix (complex F) :=
  SpMatrix (shape m) (conj <$> entries m).
Definition sp_H (m : spmatrix (complex F)) : spmatrix (complex F) :=
  sp_conj (sp_T m).

(** [nm.sqrt(a)], elementwise. *)
Definition np_sqrt (a : list F) : list F := ssqrt <$> a.

(** [a.max()] of a one-dimensional array: numpy raises on an empty one. *)
Definition np_max (a : list F) : result F :=
  match a with
  | [] => Raise ValueError
  | x :: a' => Ok (fold_left smax a' x)
  end.
End Sparse.

(* ===================================================================== *)
(** ** Matrix objects in a store *)
(* ===================================================================== *)

(** A matrix object is a real (float64) or a complex (complex128) sparse
    matrix. Names of the script ([mtx_k], [mtx_a], ...) hold references. *)
Inductive obj (F : Type) :=
| RealMat (m : spmatrix F)
| CplxMat (m : spmatrix (complex F)).
Arguments RealMat {F} m.
Arguments CplxMat {F} m.

Abbreviation loc := positive.

(** The calls of the script to its collaborators, in program order. *)
Inductive event (F : Type) :=
| EvOutput (what : string) (vals : list F)          (* output(what, vals) *)
| EvOutputStep (iv : nat) (wave_vec : list F)       (* output('step ...') *)
| EvSolve (mtx_a mtx_b : obj F) (n_eigs : Z) (eigenvectors : bool)
                                                    (* eig_solver(...) *)
| EvLog (out : list F) (x : list F)                 (* log(out..., x=...) *)
| EvMakeFullVec (svec : list (complex F))           (* variables.make_full_vec *)
| EvSetFull (vec : list (complex F))                (* state.set_full *)
| EvSaveState (iv : nat) (n_out : nat)              (* pb.save_state *)
| EvLogSaveFigure                                   (* log(save_figure=...) *)
| EvLogFinished.                                    (* log(finished=True) *)
Arguments EvOutput {F} what vals.
Arguments EvOutputStep {F} iv wave_vec.
Arguments EvSolve {F} mtx_a mtx_b n_eigs eigenvectors.
Arguments EvLog {F} out x.
Arguments EvMakeFullVec {F} svec.
Arguments EvSetFull {F} vec.
Arguments EvSaveState {F} iv n_out.
Arguments EvLogSaveFigure {F}.
Arguments EvLogFinished {F}.

Record state (F : Type) := State {
  st_heap : gmap loc (obj F);
  st_trace : list (event F)
}.
Arguments State {F} st_heap st_trace.
Arguments st_heap {F} _.
Arguments st_trace {F} _.

(** Computations that read and extend the state and may raise; the state
    reached when an exception is raised is kept. *)
Definition M (F A : Type) : Type := state F -> result A * state F.

Definition ret {F A} (a : A) : M F A := fun s => (Ok a, s).
Definition bind {F A B} (c : M F A) (k : A -> M F B) : M F B :=
  fun s => match c s with
           | (Ok a, s') => k a s'
           | (Raise e, s') => (Raise e, s')
           end.
Definition raise {F A} (e : exn) : M F A := fun s => (Raise e, s).
Definition lift {F A} (r : result A) : M F A := fun s => (r, s).

Declare Scope m_scope.
Delimit Scope m_scope with M.
Notation "x <~ c ;; k" := (bind c (fun x => k))
  (at level 100, c at next level, right associativity) : m_scope.
Notation "c ;;; k" := (bind c (fun _ => k))
  (at level 100, right associativity) : m_scope.
Open Scope m_scope.

(** [for x in l: body(x)] *)
Fixpoint for_each {F A} (l : list A) (body : A -> M F unit) : M F unit :=
  match l with
  | [] => ret tt
  | x :: l' => body x ;;; for_each l' body
  end.

(** [enumerate(l)] *)
Definition enumerate {A} (l : list A) : list (nat * A) :=
  zip (seq 0 (length l)) l.

Section Objects.
Context {F : Type} `{Scalar F}.

Definition emit (e : event F) : M F unit :=
  fun s => (Ok tt, State (st_heap s) (st_trace s ++ [e])).

(** A new object at a reference that is not in use. *)
Definition alloc (o : obj F) : M F loc :=
  fun s => let l := fresh (dom (st_heap s)) in
           (Ok l, State (<[l := o]> (st_heap s)) (st_trace s)).

Definition load (l : loc) : M F (obj F) :=
  fun s => match st_heap s !! l with
           | Some o => (Ok o, s)
           | None => (Raise TypeError, s)
           end.

Definition obj_shape (o : obj F) : nat * nat :=
  match o with RealMat m => shape m | CplxMat m => shape m end.

(** The operand as a complex matrix. *)
Definition obj_upcast (o : obj F) : spmatrix (complex F) :=
  match o with RealMat m => sp_upcast m | CplxMat m => m end.

(** A binary operator on two matrix objects: real when both are real,
    complex, after the upcast of the real operand, otherwise. *)
Definition obj_binop (rop : spmatrix F -> spmatrix F -> result (spmatrix F))
    (cop : spmatrix (complex F) -> spmatrix (complex F)
           -> result (spmatrix (complex F)))
    (o1 o2 : obj F) : result (obj F) :=
  match o1, o2 with
  | RealMat a, RealMat b =>
      match rop a b with Ok m => Ok (RealMat m) | Raise e => Raise e end
  | _, _ =>
      match cop (obj_upcast o1) (obj_upcast o2) with
      | Ok m => Ok (CplxMat m)
      | Raise e => Raise e
      end
  end.

Definition obj_add : obj F -> obj F -> result (obj F) := obj_binop sp_add sp_add.
Definition obj_sub : obj F -> obj F -> result (obj F) := obj_binop sp_sub sp_sub.

(** [c * m], [c] a float *)
Definition obj_scale (c : F) (o : obj F) : obj F :=
  match o with
  | RealMat m => RealMat (sp_scale c m)
  | CplxMat m =>
      CplxMat (SpMatrix (shape m) ((fun x => cmul x (of_real c)) <$> entries m))
  end.

(** [c * m], [c] a complex number *)
Definition obj_cscale (c : complex F) (o : obj F) : obj F :=
  match o with
  | RealMat m => CplxMat (sp_cscale c m)
  | CplxMat m => CplxMat (SpMatrix (shape m) ((fun x => cmul x c) <$> entries m))
  end.

(** [-m] *)
Definition obj_neg (o : obj F) : obj F :=
  match o with
  | RealMat m => RealMat (sp_neg m)
  | CplxMat m => CplxMat (sp_neg m)
  end.

(** [m.T] *)
Definition obj_T (o : obj F) : obj F :=
  match o with
  | RealMat m => RealMat (sp_T m)
  | CplxMat m => CplxMat (sp_T m)
  end.

(** [m.H]: the conjugate of a real matrix is the matrix itself. *)
Definition obj_H (o : obj F) : obj F :=
  match o with
  | RealMat m => RealMat (sp_T m)
  | CplxMat m => CplxMat (sp_H m)
  end.

(** [nm.abs(m.data)] *)
Definition obj_abs_data (o : obj F) : list F :=
  match o with
  | RealMat m => dabs <$> mat_data m
  | CplxMat m => dabs <$> mat_data m
  end.

(** The operators on references: the operands are read and the result is
    a new object. *)
Definition py_binop (op : obj F -> obj F -> result (obj F)) (l1 l2 : loc)
  : M F loc :=
  o1 <~ load l1 ;;
  o2 <~ load l2 ;;
  o <~ lift (op o1 o2) ;;
  alloc o.

Definition py_unop (f : obj F -> obj F) (l : loc) : M F loc :=
  o <~ load l ;; alloc (f o).

Definition py_add := py_binop obj_add.           (* a + b *)
Definition py_sub := py_binop obj_sub.           (* a - b *)
Definition py_scale (c : F) := py_unop (obj_scale c).
Definition py_cscale (c : complex F) := py_unop (obj_cscale c).
Definition py_neg := py_unop obj_neg.
Definition py_T := py_unop obj_T.
Definition py_H := py_unop obj_H.

Definition np_abs_data (l : loc) : M F (list F) :=
  o <~ load l ;; ret (obj_abs_data o).

(** [_max_diff_csr(mtx1, mtx2)]:
    [aux = nm.abs((mtx1 - mtx2).data);
     return aux.max() if len(aux) else 0.0] *)
Definition _max_diff_csr (mtx1 mtx2 : loc) : M F F :=
  d <~ py_sub mtx1 mtx2 ;;
  aux <~ np_abs_data d ;;
  if bool_decide (length aux ≠ 0) then lift (np_max aux) else ret szero.
End Objects.

(* ===================================================================== *)
(** ** The sweep of [main] *)
(* ===================================================================== *)

(** The command-line options the sweep reads. *)
Record options := Options {
  n_eigs : Z;                (* type=int: any integer is accepted *)
  eigs_only : bool;
  log_std_waves : bool
}.

Section Sweep.
Context {F : Type} `{Scalar F}.

(** The collaborators. [eig_solver(mtx_a, mtx_b, n_eigs, eigenvectors)]
    returns the eigenvalues and, as a list of columns, the eigenvectors
    (read only when they were asked for), or raises.
    [variables.make_full_vec] adds the DOFs fixed by boundary conditions. *)
Variable eig_solver :
  obj F -> obj F -> Z -> bool -> result (list F * list (list (complex F))).
Variable make_full_vec : list (complex F) -> list (complex F).

Variable opts : options.
(** References to the four assembled real blocks. *)
Variables mtx_m mtx_k mtx_s mtx_r : loc.
(** The normalised wave direction, and the average wave speeds that
    [--log-std-waves] adds to the log. *)
Variable wdir : list F.
Variables cp cs : F.

(** Lines 325-328. *)
Definition symmetry_checks : M F unit :=
  emit (EvOutput "symmetry checks of real blocks:" []) ;;;
  d <~ (t <~ py_T mtx_m ;; _max_diff_csr mtx_m t) ;;
  emit (EvOutput "M - M^T:" [d]) ;;;
  d <~ (t <~ py_T mtx_k ;; _max_diff_csr mtx_k t) ;;
  emit (EvOutput "K - K^T:" [d]) ;;;
  d <~ (t <~ py_T mtx_s ;; _max_diff_csr mtx_s t) ;;
  emit (EvOutput "S - S^T:" [d]) ;;;
  d <~ (t <~ py_T mtx_r ;; n <~ py_neg t ;; _max_diff_csr mtx_r n) ;;
  emit (EvOutput "R + R^T:" [d]).

(** Lines 363-364:
    [mtx_a = mtx_k + wmag**2 * mtx_s + (1j * wmag) * mtx_r; mtx_b = mtx_m].
    The square [wmag**2] is read as the product [wmag * wmag]. *)
Definition assemble (wmag : F) : M F (loc * loc) :=
  t1 <~ py_scale (smul wmag wmag) mtx_s ;;
  t2 <~ py_add mtx_k t1 ;;
  t3 <~ py_cscale (cmul c_j (of_real wmag)) mtx_r ;;
  mtx_a <~ py_add t2 t3 ;;
  ret (mtx_a, mtx_m).

Definition call_eig_solver (mtx_a mtx_b : loc) (eigenvectors : bool)
  : M F (list F * list (list (complex F))) :=
  a <~ load mtx_a ;;
  b <~ load mtx_b ;;
  emit (EvSolve a b (n_eigs opts) eigenvectors) ;;;
  lift (eig_solver a b (n_eigs opts) eigenvectors).

(** Lines 386-401: the full eigenvectors and their output. *)
Definition save_eigenvectors (iv : nat) (eigs : list F)
    (svecs : list (list (complex F))) : M F unit :=
  for_each svecs (fun svec => emit (EvMakeFullVec svec)) ;;;
  let vecs := make_full_vec <$> svecs in
  for_each (seq 0 (length eigs))
    (fun ii => match vecs !! ii with
               | Some v => emit (EvSetFull v)
               | None => raise IndexError
               end) ;;;
  emit (EvSaveState iv (length eigs)).

(** The body of the loop, lines 360-401. *)
Definition step (iv : nat) (wmag : F) : M F unit :=
  let wave_vec := smul wmag <$> wdir in
  emit (EvOutputStep iv wave_vec) ;;;
  ab <~ assemble wmag ;;
  let mtx_a := ab.1 in
  let mtx_b := ab.2 in
  d <~ (h <~ py_H mtx_a ;; _max_diff_csr mtx_a h) ;;
  emit (EvOutput "symmetry check of complex matrix A - A^H:" [d]) ;;;
  es <~ (if eigs_only opts
         then r <~ call_eig_solver mtx_a mtx_b false ;; ret (r.1, None)
         else r <~ call_eig_solver mtx_a mtx_b true ;; ret (r.1, Some r.2)) ;;
  let eigs := es.1 in
  let svecs := es.2 in
  let omegas := np_sqrt eigs in
  emit (EvOutput "eigs, omegas:" (eigs ++ omegas)) ;;;
  let out := eigs ++ omegas in
  let out := if log_std_waves opts
             then out ++ [smul cp wmag; smul cs wmag] else out in
  emit (EvLog out [wmag; wmag]) ;;;
  match svecs with
  | Some svecs => save_eigenvectors iv eigs svecs
  | None => ret tt
  end.

(** Lines 359-404: [for iv, wmag in wmag_stepper: ...], then the log is
    closed. The stepper yields the step number and the magnitude. *)
Definition sweep (wmag_stepper : list F) : M F unit :=
  for_each (enumerate wmag_stepper) (fun p => step p.1 p.2) ;;;
  emit EvLogSaveFigure ;;;
  emit EvLogFinished.

(** Lines 324-404. *)
Definition main (wmag_stepper : list F) : M F unit :=
  symmetry_checks ;;; sweep wmag_stepper.
End Sweep.

(* ===================================================================== *)
(** ** The wave direction and the magnitudes (float64) *)
(* ===================================================================== *)

Section Float64.
Open Scope float_scope.

(** [nm.linalg.norm(x)] of a one-dimensional float64 array:
    [sqrt(dot(x, x))]. *)
Definition np_norm (x : list float) : float :=
  PrimFloat.sqrt (fold_left (fun acc xi => acc + xi * xi) x 0).

(** Lines 264-265:
    [wdir = nm.asarray(options.wave_dir[:dim], dtype=nm.float64);
     wdir = wdir / nm.linalg.norm(wdir)] *)
Definition normalize_wave_dir (wave_dir : list float) (dim : nat) : list float :=
  let wdir := take dim wave_dir in
  (fun x => x / np_norm wdir) <$> wdir.

Definition float_of_nat (n : nat) : float :=
  PrimFloat.of_uint63 (Uint63.of_Z (Z.of_nat n)).

(** Modelled from the spec: [TimeStepper(t0, t1, n_step=n)] of
    [sfepy.solvers.ts] is not part of the sources at hand. The spec has the
    sweep "defined by a start, stop, and count (linearly spaced)", and the
    help text says "like numpy.linspace": [num] points, the first [start],
    the last [stop]. *)
Definition linspace (start stop : float) (num : nat) : list float :=
  match num with
  | 0%nat => []
  | 1%nat => [start]
  | S d =>
      let step := (stop - start) / float_of_nat d in
      ((fun i => float_of_nat i * step + start) <$> seq 0 d) ++ [stop]
  end.
End Float64.

(* ===================================================================== *)
(** ** Specifications: what a run returns and what it leaves behind *)
(* ===================================================================== *)

Section StateOrder.
Context {F : Type} `{Scalar F}.

(** The state only grows: objects are added to the store, events to the
    trace. *)
Definition grows (s s' : state F) : Prop :=
  st_heap s ⊆ st_heap s' /\ st_trace s `prefix_of` st_trace s'.

(** A computation under which the state only grows. *)
Definition monotone {A} (c : M F A) : Prop := forall s, grows s (c s).2.

(** Only the store grows; the trace is the same. *)
Definition heap_grows (s s' : state F) : Prop :=
  st_heap s ⊆ st_heap s' /\ st_trace s' = st_trace s.

(** The object line 363 builds from the objects of the three blocks. *)
Definition mtx_a_of (K S R : obj F) (wmag : F) : result (obj F) :=
  match obj_add K (obj_scale (smul wmag wmag) S) with
  | Ok t2 => obj_add t2 (obj_cscale (cmul c_j (of_real wmag)) R)
  | Raise e => Raise e
  end.

(** The value of [_max_diff_csr] on two objects. *)
Definition max_diff_of (o1 o2 : obj F) : result F :=
  match obj_sub o1 o2 with
  | Ok d =>
      let aux := obj_abs_data d in
      if bool_decide (length aux ≠ 0) then np_max aux else Ok szero
  | Raise e => Raise e
  end.
End StateOrder.

(** The entry of [K + κ²·S + i·κ·R] for the entries [k], [s], [r] of the
    three blocks. *)
Definition a_value {F} `{Scalar F} (wmag k s r : F) : complex F :=
  Cx (sadd k (smul (smul wmag wmag) s)) (smul wmag r).

(** A stored entry of line 363, from what the blocks store at its place. *)
Definition a_entry {F} `{Scalar F} (wmag : F) (k s r : option F)
  : option (complex F) :=
  binop_entry dadd
    (of_real <$> binop_entry dadd k ((fun x => smul x (smul wmag wmag)) <$> s))
    ((fun x => cmul (of_real x) (cmul c_j (of_real wmag))) <$> r).

(** A value as a sparse entry: stored unless it is zero. *)
Definition canon {F E} `{Dtype F E} (v : E) : option E :=
  if dnonzero v then Some v else None.

(** The dispersion records: the arguments of the calls of [log], in order. *)
Definition log_records {F} (tr : list (event F)) : list (list F * list F) :=
  omap (fun e => match e with EvLog out x => Some (out, x) | _ => None end) tr.

(** The calls of the eigensolver, in order. *)
Definition solver_calls {F} (tr : list (event F))
  : list (obj F * obj F * Z * bool) :=
  omap (fun e => match e with
                 | EvSolve a b n v => Some (a, b, n, v)
                 | _ => None
                 end) tr.

(** The calls of [make_full_vec], in order. *)
Definition full_vec_calls {F} (tr : list (event F)) : list (list (complex F)) :=
  omap (fun e => match e with EvMakeFullVec v => Some v | _ => None end) tr.

(** The values that a step passes to [log]: the eigenvalues, the
    frequencies and, with [--log-std-waves], the two standard waves. *)
Definition record_out {F} `{Scalar F} (opts : options) (cp cs wmag : F)
    (eigs : list F) : list F :=
  eigs ++ np_sqrt eigs
    ++ (if log_std_waves opts then [smul cp wmag; smul cs wmag] else []).

(** [enumerate] from a given first number. *)
Definition enumerate_from {A} (i : nat) (l : list A) : list (nat * A) :=
  zip (seq i (length l)) l.

(** The number of stored entries of a matrix object that are not zero. *)
Definition obj_nnz {F} `{Scalar F} (o : obj F) : nat :=
  match o with
  | RealMat m => length (filter (fun v => dnonzero v = true) (mat_data m))
  | CplxMat m => length (filter (fun v => dnonzero v = true) (mat_data m))
  end.

(** The number of stored entries of a matrix object. *)
Definition obj_nstored {F} (o : obj F) : nat :=
  match o with
  | RealMat m => size (entries m)
  | CplxMat m => size (entries m)
  end.

Section Outcomes.
Context {F : Type} `{Scalar F}.
Variable eig_solver :
  obj F -> obj F -> Z -> bool -> result (list F * list (list (complex F))).
Variable make_full_vec : list (complex F) -> list (complex F).
Variable opts : options.
Variables mtx_m mtx_k mtx_s mtx_r : loc.
Variable wdir : list F.
Variables cp cs : F.
(** The objects that the four names refer to. *)
Variables oM K S R : obj F.

(** The events and the result of lines 386-401. *)
Definition save_outcome (iv : nat) (eigs : list F)
    (svecs : list (list (complex F))) : list (event F) * result unit :=
  let vecs := make_full_vec <$> svecs in
  let full := EvMakeFullVec <$> svecs in
  if decide (length eigs <= length vecs)
  then (full ++ (EvSetFull <$> take (length eigs) vecs)
          ++ [EvSaveState iv (length eigs)], Ok tt)
  else (full ++ (EvSetFull <$> vecs), Raise IndexError).

(** The events and the result of one pass through the loop body, from the
    assembled object [A] and the value [d] of its Hermitian check on. *)
Definition solve_outcome (iv : nat) (wmag : F) (A : obj F) (d : F)
  : list (event F) * result unit :=
  let vectors := negb (eigs_only opts) in
  let pre := [EvOutputStep iv (smul wmag <$> wdir);
              EvOutput "symmetry check of complex matrix A - A^H:" [d];
              EvSolve A oM (n_eigs opts) vectors] in
  match eig_solver A oM (n_eigs opts) vectors with
  | Raise e => (pre, Raise e)
  | Ok (eigs, svecs) =>
      let omegas := np_sqrt eigs in
      let out := eigs ++ omegas in
      let out := if log_std_waves opts
                 then out ++ [smul cp wmag; smul cs wmag] else out in
      let mid := pre ++ [EvOutput "eigs, omegas:" (eigs ++ omegas);
                         EvLog out [wmag; wmag]] in
      if eigs_only opts then (mid, Ok tt)
      else let sv := save_outcome iv eigs svecs in (mid ++ sv.1, sv.2)
  end.

(** The events and the result of one pass through the loop body. *)
Definition step_outcome (iv : nat) (wmag : F) : list (event F) * result unit :=
  let e0 := EvOutputStep iv (smul wmag <$> wdir) in
  match mtx_a_of K S R wmag with
  | Raise e => ([e0], Raise e)
  | Ok A =>
      match max_diff_of A (obj_H A) with
      | Raise e => ([e0], Raise e)
      | Ok d => solve_outcome iv wmag A d
      end
  end.

(** The events and the result of the loop over the given steps. *)
Fixpoint loop_outcome (steps : list (nat * F)) : list (event F) * result unit :=
  match steps with
  | [] => ([], Ok tt)
  | p :: rest =>
      let o := step_outcome p.1 p.2 in
      match o.2 with
      | Ok _ => let o' := loop_outcome rest in (o.1 ++ o'.1, o'.2)
      | Raise e => (o.1, Raise e)
      end
  end.

(** The events and the result of the sweep. *)
Definition sweep_outcome (wmag_stepper : list F) : list (event F) * result unit :=
  let o := loop_outcome (enumerate wmag_stepper) in
  match o.2 with
  | Ok _ => (o.1 ++ [EvLogSaveFigure; EvLogFinished], Ok tt)
  | Raise e => (o.1, Raise e)
  end.

(** The four names refer to their objects. *)
Definition holds (s : state F) : Prop :=
  st_heap s !! mtx_m = Some oM /\ st_heap s !! mtx_k = Some K /\
  st_heap s !! mtx_s = Some S /\ st_heap s !! mtx_r = Some R.

(** The solver returns on the matrix assembled at [wmag], with an
    eigenvector for each eigenvalue when eigenvectors are asked for. *)
Definition solver_returns (wmag : F) : Prop :=
  forall A, mtx_a_of K S R wmag = Ok A ->
    exists eigs svecs,
      eig_solver A oM (n_eigs opts) (negb (eigs_only opts)) = Ok (eigs, svecs) /\
      (eigs_only opts = false -> length eigs <= length svecs).

(** [rec] is the dispersion record of the magnitude [wmag]. *)
Definition record_of (wmag : F) (rec : list F * list F) : Prop :=
  exists A eigs svecs,
    mtx_a_of K S R wmag = Ok A /\
    eig_solver A oM (n_eigs opts) (negb (eigs_only opts)) = Ok (eigs, svecs) /\
    rec = (record_out opts cp cs wmag eigs, [wmag; wmag]).
End Outcomes.

(* ===================================================================== *)
(** ** The symmetry checks, the log names and the command line *)
(* ===================================================================== *)

Section MainOutcome.
Context {F : Type} `{Scalar F}.
Variable eig_solver :
  obj F -> obj F -> Z -> bool -> result (list F * list (list (complex F))).
Variable make_full_vec : list (complex F) -> list (complex F).
Variable opts : options.
Variable wdir : list F.
Variables cp cs : F.
Variables oM K S R : obj F.

(** The events and the result of lines 324-328. *)
Definition checks_outcome : list (event F) * result unit :=
  let e0 := EvOutput "symmetry checks of real blocks:" [] in
  match max_diff_of oM (obj_T oM) with
  | Raise e => ([e0], Raise e)
  | Ok dm =>
      let em := EvOutput "M - M^T:" [dm] in
      match max_diff_of K (obj_T K) with
      | Raise e => ([e0; em], Raise e)
      | Ok dk =>
          let ek := EvOutput "K - K^T:" [dk] in
          match max_diff_of S (obj_T S) with
          | Raise e => ([e0; em; ek], Raise e)
          | Ok ds =>
              let es := EvOutput "S - S^T:" [ds] in
              match max_diff_of R (obj_neg (obj_T R)) with
              | Raise e => ([e0; em; ek; es], Raise e)
              | Ok dr => ([e0; em; ek; es; EvOutput "R + R^T:" [dr]], Ok tt)
              end
          end
      end
  end.

(** The events and the result of lines 324-404. *)
Definition main_outcome (wmag_stepper : list F) : list (event F) * result unit :=
  match checks_outcome.2 with
  | Ok _ =>
      let o := sweep_outcome eig_solver make_full_vec opts wdir cp cs oM K S R
                 wmag_stepper in
      (checks_outcome.1 ++ o.1, o.2)
  | Raise e => (checks_outcome.1, Raise e)
  end.
End MainOutcome.

(** [range(n)]: empty for a negative [n]. *)
Definition py_range (n : Z) : list nat := seq 0 (Z.to_nat n).

(** Lines 347 and 351-352: the names of the values of the log, in its two
    groups: an eigenvalue name per requested eigenvalue, then a frequency
    name per requested eigenvalue and, with [--log-std-waves], the names of
    the two standard waves. *)
Definition log_extra_names (opts : options) : list string :=
  if log_std_waves opts then ["$\omega_p$"; "$\omega_s$"] else [].

Definition log_data_names (opts : options) : list (list string) :=
  [(fun ii : nat => "$\lambda_{" +:+ pretty ii +:+ "}$") <$> py_range (n_eigs opts);
   ((fun ii : nat => "$\omega_{" +:+ pretty ii +:+ "}$") <$> py_range (n_eigs opts))
     ++ log_extra_names opts].

(** [s.split(sep)] for a separator of one character: the pieces between the
    separators, at least one piece. *)
Fixpoint split_on (sep : Ascii.ascii) (s : string) : list string :=
  match s with
  | EmptyString => [EmptyString]
  | String c s' =>
      if Ascii.eqb c sep then EmptyString :: split_on sep s'
      else match split_on sep s' with
           | piece :: pieces => String c piece :: pieces
           | [] => [String c EmptyString]
           end
  end.

(** The number of occurrences of a character in a string. *)
Fixpoint count_char (c : Ascii.ascii) (s : string) : nat :=
  match s with
  | EmptyString => 0
  | String c' s' => (if Ascii.eqb c' c then 1 else 0) + count_char c s'
  end.

(** [[f(x) for x in l]] for a conversion that may raise: the first
    exception is the result. *)
Fixpoint map_result {A B} (f : A -> result B) (l : list A) : result (list B) :=
  match l with
  | [] => Ok []
  | x :: l' =>
      match f x with
      | Raise e => Raise e
      | Ok y =>
          match map_result f l' with
          | Raise e => Raise e
          | Ok ys => Ok (y :: ys)
          end
      end
  end.

(** The separator of the option values. *)
Definition comma : Ascii.ascii := Ascii.Ascii false false true true false true false false.

Section CommandLine.
Context {F : Type}.
(** [float(s)] and [int(s)]: a value, or [ValueError]. *)
Variable py_float : string -> result F.
Variable py_int : string -> result Z.

(** Lines 219-221 and 224-225: [[float(ii) for ii in s.split(',')]] *)
Definition parse_floats (s : string) : result (list F) :=
  map_result py_float (split_on comma s).

(** [aux[i]] *)
Definition item (aux : list string) (i : nat) : result string :=
  match aux !! i with
  | Some x => Ok x
  | None => Raise IndexError
  end.

(** Lines 222-223:
    [aux = options.wave_range.split(',');
     options.wave_range = [float(aux[0]), float(aux[1]), int(aux[2])]] *)
Definition parse_wave_range (s : string) : result (F * F * Z) :=
  let aux := split_on comma s in
  match item aux 0 with
  | Raise e => Raise e
  | Ok a0 =>
  match py_float a0 with
  | Raise e => Raise e
  | Ok start =>
  match item aux 1 with
  | Raise e => Raise e
  | Ok a1 =>
  match py_float a1 with
  | Raise e => Raise e
  | Ok stop =>
  match item aux 2 with
  | Raise e => Raise e
  | Ok a2 =>
  match py_int a2 with
  | Raise e => Raise e
  | Ok count => Ok (start, stop, count)
  end end end end end end.
End CommandLine.

(** The two calls that close the log. *)
Definition closes_log {F} (e : event F) : bool :=
  match e with
  | EvLogSaveFigure | EvLogFinished => true
  | _ => false
  end.


(** Two float64 values that are the same number: [x == y] holds, or both
    are NaN. The two zeros are the same number. *)
Definition same_number (x y : float) : Prop :=
  PrimFloat.eqb x y = true \/
  (PrimFloat.is_nan x = true /\ PrimFloat.is_nan y = true).

(** The same relation on the specification of binary64. *)
Definition sf_same (a b : spec_float) : Prop :=
  match a, b with
  | S754_zero _, S754_zero _ => True
  | S754_nan, S754_nan => True
  | S754_infinity s, S754_infinity s' => s = s'
  | S754_finite s m e, S754_finite s' m' e' => s = s' /\ m = m' /\ e = e'
  | _, _ => False
  end.

(** The step numbers of the calls of [pb.save_state], in order: the numbers
    of the eigenshape files written. *)
Definition saved_steps {F} (tr : list (event F)) : list nat :=
  omap (fun e => match e with EvSaveState iv _ => Some iv | _ => None end) tr.

(* ===================================================================== *)
(** ** Test data *)
(* ===================================================================== *)

(** Exact arithmetic, two unknowns: the identity and a rotation generator. *)
Definition identity2 : spmatrix Z :=
  SpMatrix (2, 2) (list_to_map [((0, 0), 1%Z); ((1, 1), 1%Z)]).
Definition rotation2 : spmatrix Z :=
  SpMatrix (2, 2) (list_to_map [((0, 1), 1%Z); ((1, 0), (-1)%Z)]).

(** [mtx_m], [mtx_k], [mtx_s], [mtx_r] at the references 1, 2, 3, 4. *)
Definition store_of {F} (M K S R : spmatrix F) : state F :=
  State (list_to_map [(1%positive, RealMat M); (2%positive, RealMat K);
                      (3%positive, RealMat S); (4%positive, RealMat R)]) [].

(** K = M = S = identity(2), R = [[0, 1], [-1, 0]]. *)
Definition exact_store : state Z :=
  store_of identity2 identity2 identity2 rotation2.

(** Floats, one unknown: the four blocks are 1 x 1. An antisymmetric 1 x 1
    block stores nothing. *)
Definition block1 (v : float) : spmatrix float :=
  SpMatrix (1, 1) (list_to_map [((0, 0), v)]).
Definition empty1 : spmatrix float := SpMatrix (1, 1) ∅.

(** M = [2], K = [4], S = [1], R = [0]. *)
Definition float_store : state float :=
  store_of (block1 2) (block1 4) (block1 1) empty1.

(** Floats, two unknowns: K = M = S = identity(2), R = [[0, 1], [-1, 0]]. *)
Definition float_identity2 : spmatrix float :=
  SpMatrix (2, 2) (list_to_map [((0, 0), 1%float); ((1, 1), 1%float)]).
Definition float_rotation2 : spmatrix float :=
  SpMatrix (2, 2) (list_to_map [((0, 1), 1%float); ((1, 0), (-1)%float)]).
Definition float_store2 : state float :=
  store_of float_identity2 float_identity2 float_identity2 float_rotation2.

(** An eigensolver for 1 x 1 problems: the eigenvalue of [A v = λ B v] is
    [A[0,0] / B[0,0]], truncated to the [n_eigs] first ones as the slice
    [[:n_eigs]] does. With a [limit] it gives up with [ConvergenceError] on
    an eigenvalue above the limit. *)
Definition solver_1x1 (limit : option float) (a b : obj float) (n_eigs : Z)
    (eigenvectors : bool) : result (list float * list (list (complex float))) :=
  match a, b with
  | CplxMat A, RealMat B =>
      if dnonzero (mat_get B 0 0) then
        let lam := (re (mat_get A 0 0) / mat_get B 0 0)%float in
        if match limit with Some l => PrimFloat.ltb l lam | None => false end
        then Raise ConvergenceError
        else Ok (take (Z.to_nat n_eigs) [lam],
                 take (Z.to_nat n_eigs) [[Cx 1%float 0%float]])
      else Raise SingularMatrixError
  | _, _ => Raise TypeError
  end.

(* ===================================================================== *)
(** ** Running computations *)
(* ===================================================================== *)

Section Run.
Context {F : Type} `{Scalar F}.

Lemma bind_Ok {A B} (c : M F A) (k : A -> M F B) s a s' :
  c s = (Ok a, s') -> bind c k s = k a s'.
Proof. intros Hc. unfold bind. by rewrite Hc. Qed.

Lemma bind_Raise {A B} (c : M F A) (k : A -> M F B) s e s' :
  c s = (Raise e, s') -> bind c k s = (Raise e, s').
Proof. intros Hc. unfold bind. by rewrite Hc. Qed.

#[export] Instance grows_preorder : PreOrder (@grows F).
Proof.
  split.
  - intros s. split; reflexivity.
  - intros s1 s2 s3 [Hh1 Ht1] [Hh2 Ht2]. split; etrans; eauto.
Qed.

Lemma monotone_ret {A} (a : A) : monotone (ret (F:=F) a).
Proof. intros s. reflexivity. Qed.

Lemma monotone_raise {A} e : monotone (@raise F A e).
Proof. intros s. reflexivity. Qed.

Lemma monotone_lift {A} (r : result A) : monotone (lift (F:=F) r).
Proof. intros s. reflexivity. Qed.

Lemma monotone_bind {A B} (c : M F A) (k : A -> M F B) :
  monotone c -> (forall a, monotone (k a)) -> monotone (bind c k).
Proof.
  intros Hc Hk s. unfold bind. specialize (Hc s).
  destruct (c s) as [[a|e] s1]; simpl in *; [|done].
  etrans; [exact Hc|apply Hk].
Qed.

Lemma monotone_emit e : monotone (emit (F:=F) e).
Proof. intros s. split; simpl; [done|by apply prefix_app_r]. Qed.

Lemma monotone_load l : monotone (load (F:=F) l).
Proof. intros s. unfold load. destruct (st_heap s !! l); reflexivity. Qed.

Lemma fresh_loc_unused (s : state F) : st_heap s !! fresh (dom (st_heap s)) = None.
Proof. apply not_elem_of_dom, is_fresh. Qed.

Lemma monotone_alloc o : monotone (alloc (F:=F) o).
Proof.
  intros s. split; simpl; [|done].
  apply insert_subseteq, fresh_loc_unused.
Qed.

Lemma monotone_for_each {A} (l : list A) (body : A -> M F unit) :
  (forall x, monotone (body x)) -> monotone (for_each l body).
Proof.
  intros Hb. induction l as [|x l IH]; simpl.
  - apply monotone_ret.
  - apply monotone_bind; auto.
Qed.

Lemma monotone_if {A} (b : bool) (c1 c2 : M F A) :
  monotone c1 -> monotone c2 -> monotone (if b then c1 else c2).
Proof. by destruct b. Qed.
End Run.

Create HintDb mono.
#[export] Hint Resolve monotone_ret monotone_raise monotone_lift monotone_emit
  monotone_load monotone_alloc monotone_if : mono.
#[export] Hint Extern 2 (monotone (bind _ _)) =>
  apply monotone_bind; [|intros ?] : mono.
#[export] Hint Extern 2 (monotone (for_each _ _)) =>
  apply monotone_for_each; intros ? : mono.

Section Frame.
Context {F : Type} `{Scalar F}.
Variable eig_solver :
  obj F -> obj F -> Z -> bool -> result (list F * list (list (complex F))).
Variable make_full_vec : list (complex F) -> list (complex F).
Variable opts : options.
Variables mtx_m mtx_k mtx_s mtx_r : loc.
Variable wdir : list F.
Variables cp cs : F.

Lemma monotone_py_binop op l1 l2 : monotone (py_binop (F:=F) op l1 l2).
Proof. unfold py_binop. auto with mono. Qed.

Lemma monotone_py_unop f l : monotone (py_unop (F:=F) f l).
Proof. unfold py_unop. auto with mono. Qed.

Hint Resolve monotone_py_binop monotone_py_unop : mono.

Lemma monotone_max_diff_csr l1 l2 : monotone (_max_diff_csr (F:=F) l1 l2).
Proof.
  unfold _max_diff_csr, py_sub, np_abs_data.
  auto with mono.
Qed.

Hint Resolve monotone_max_diff_csr : mono.

Lemma monotone_assemble wmag : monotone (assemble mtx_m mtx_k mtx_s mtx_r wmag).
Proof.
  unfold assemble, py_scale, py_add, py_cscale. auto 10 with mono.
Qed.

Lemma monotone_symmetry_checks :
  monotone (symmetry_checks mtx_m mtx_k mtx_s mtx_r).
Proof.
  unfold symmetry_checks, py_T, py_neg. auto 30 with mono.
Qed.

Lemma monotone_save_eigenvectors iv eigs svecs :
  monotone (save_eigenvectors (F:=F) make_full_vec iv eigs svecs).
Proof.
  unfold save_eigenvectors.
  repeat (apply monotone_bind; [|intros ?]); auto with mono.
  apply monotone_for_each. intros ii. destruct (_ !! _); auto with mono.
Qed.

Lemma monotone_call_eig_solver a b v :
  monotone (call_eig_solver eig_solver opts a b v).
Proof. unfold call_eig_solver. auto 10 with mono. Qed.

Lemma monotone_step iv wmag :
  monotone (step eig_solver make_full_vec opts mtx_m mtx_k mtx_s mtx_r
              wdir cp cs iv wmag).
Proof.
  unfold step, py_H.
  pose proof (monotone_assemble wmag).
  pose proof monotone_call_eig_solver.
  pose proof monotone_save_eigenvectors.
  repeat (apply monotone_bind; [|intros ?]); auto 10 with mono.
  destruct (_ : option _); auto with mono.
Qed.

Lemma monotone_sweep times :
  monotone (sweep eig_solver make_full_vec opts mtx_m mtx_k mtx_s mtx_r
              wdir cp cs times).
Proof.
  unfold sweep. pose proof monotone_step. auto 10 with mono.
Qed.

Lemma monotone_main times :
  monotone (main eig_solver make_full_vec opts mtx_m mtx_k mtx_s mtx_r
              wdir cp cs times).
Proof.
  unfold main. pose proof monotone_sweep. pose proof monotone_symmetry_checks.
  auto with mono.
Qed.
End Frame.

(* ===================================================================== *)
(** ** What the computations return: values and events *)
(* ===================================================================== *)

(** One step of a run: the first computation of a [bind] returned. *)
Ltac run_ok H := rewrite (bind_Ok _ _ _ _ _ H); cbv beta.

Section Denotation.
Context {F : Type} `{Scalar F}.

Lemma heap_grows_refl (s : state F) : heap_grows s s.
Proof. split; reflexivity. Qed.

Lemma heap_grows_trans (s1 s2 s3 : state F) :
  heap_grows s1 s2 -> heap_grows s2 s3 -> heap_grows s1 s3.
Proof. intros [? ?] [? ?]. split; [by etrans|congruence]. Qed.

Lemma heap_grows_lookup (s s' : state F) l o :
  heap_grows s s' -> st_heap s !! l = Some o -> st_heap s' !! l = Some o.
Proof. intros [Hsub _] Hl. by eapply lookup_weaken. Qed.

Lemma load_run l o (s : state F) :
  st_heap s !! l = Some o -> load l s = (Ok o, s).
Proof. intros Hl. unfold load. by rewrite Hl. Qed.

Lemma alloc_run o (s : state F) :
  exists l s', alloc o s = (Ok l, s') /\ heap_grows s s' /\
    st_heap s' !! l = Some o /\ st_heap s !! l = None.
Proof.
  eexists _, _. split; [reflexivity|]. simpl.
  pose proof (fresh_loc_unused s) as Hfresh.
  repeat split; simpl; auto.
  - by apply insert_subseteq.
  - by rewrite lookup_insert_eq.
Qed.

Lemma py_unop_run f l o (s : state F) :
  st_heap s !! l = Some o ->
  exists l' s', py_unop f l s = (Ok l', s') /\ heap_grows s s' /\
    st_heap s' !! l' = Some (f o) /\ st_heap s !! l' = None.
Proof.
  intros Hl. unfold py_unop.
  rewrite (bind_Ok _ _ _ _ _ (load_run _ _ _ Hl)).
  apply alloc_run.
Qed.

Lemma py_binop_Ok op l1 l2 o1 o2 o (s : state F) :
  st_heap s !! l1 = Some o1 -> st_heap s !! l2 = Some o2 ->
  op o1 o2 = Ok o ->
  exists l' s', py_binop op l1 l2 s = (Ok l', s') /\ heap_grows s s' /\
    st_heap s' !! l' = Some o /\ st_heap s !! l' = None.
Proof.
  intros Hl1 Hl2 Hop. unfold py_binop.
  rewrite (bind_Ok _ _ _ _ _ (load_run _ _ _ Hl1)).
  rewrite (bind_Ok _ _ _ _ _ (load_run _ _ _ Hl2)).
  rewrite (bind_Ok _ _ s o s); [|unfold lift; by rewrite Hop].
  apply alloc_run.
Qed.

Lemma py_binop_Raise op l1 l2 o1 o2 e (s : state F) :
  st_heap s !! l1 = Some o1 -> st_heap s !! l2 = Some o2 ->
  op o1 o2 = Raise e ->
  py_binop op l1 l2 s = (Raise e, s).
Proof.
  intros Hl1 Hl2 Hop. unfold py_binop.
  rewrite (bind_Ok _ _ _ _ _ (load_run _ _ _ Hl1)).
  rewrite (bind_Ok _ _ _ _ _ (load_run _ _ _ Hl2)).
  apply bind_Raise. unfold lift. by rewrite Hop.
Qed.

Lemma np_abs_data_run l o (s : state F) :
  st_heap s !! l = Some o -> np_abs_data l s = (Ok (obj_abs_data o), s).
Proof. intros Hl. unfold np_abs_data. by run_ok (load_run _ _ _ Hl). Qed.

Lemma max_diff_csr_run l1 l2 o1 o2 (s : state F) :
  st_heap s !! l1 = Some o1 -> st_heap s !! l2 = Some o2 ->
  exists s', _max_diff_csr l1 l2 s = (max_diff_of o1 o2, s') /\ heap_grows s s'.
Proof.
  intros Hl1 Hl2. unfold _max_diff_csr, max_diff_of, py_sub.
  destruct (obj_sub o1 o2) as [d|e] eqn:Hd.
  - destruct (py_binop_Ok _ _ _ _ _ _ _ Hl1 Hl2 Hd) as (l & s1 & Hrun & Hg & Hl & _).
    run_ok Hrun. run_ok (np_abs_data_run _ _ _ Hl).
    exists s1. split; [|done].
    case_bool_decide; done.
  - exists s. split; [|apply heap_grows_refl].
    apply bind_Raise. by eapply py_binop_Raise.
Qed.
End Denotation.

Section OutcomeFacts.
Context {F : Type} `{Scalar F}.
Variable eig_solver :
  obj F -> obj F -> Z -> bool -> result (list F * list (list (complex F))).
Variable make_full_vec : list (complex F) -> list (complex F).
Variable opts : options.
Variables mtx_m mtx_k mtx_s mtx_r : loc.
Variable wdir : list F.
Variables cp cs : F.
Variables oM K S R : obj F.

#[local] Abbreviation holds := (holds mtx_m mtx_k mtx_s mtx_r oM K S R).
#[local] Abbreviation save_outcome := (save_outcome make_full_vec).
#[local] Abbreviation solve_outcome :=
  (solve_outcome eig_solver make_full_vec opts wdir cp cs oM).
#[local] Abbreviation step_outcome :=
  (step_outcome eig_solver make_full_vec opts wdir cp cs oM K S R).
#[local] Abbreviation loop_outcome :=
  (loop_outcome eig_solver make_full_vec opts wdir cp cs oM K S R).
#[local] Abbreviation sweep_outcome :=
  (sweep_outcome eig_solver make_full_vec opts wdir cp cs oM K S R).

Lemma holds_grows (s s' : state F) : holds s -> st_heap s ⊆ st_heap s' -> holds s'.
Proof.
  intros (Hm & Hk & Hs & Hr) Hsub. repeat split; by eapply lookup_weaken.
Qed.

Lemma emit_run e (s : state F) :
  emit e s = (Ok tt, State (st_heap s) (st_trace s ++ [e])).
Proof. reflexivity. Qed.

Lemma for_each_emit {A} (f : A -> event F) (l : list A) (s : state F) :
  for_each l (fun x => emit (f x)) s
  = (Ok tt, State (st_heap s) (st_trace s ++ (f <$> l))).
Proof.
  revert s. induction l as [|x l IH]; intros s; simpl.
  - destruct s. by rewrite app_nil_r.
  - run_ok (emit_run (f x) s). rewrite IH. simpl. by rewrite <- app_assoc.
Qed.

Lemma for_each_set_full (vecs : list (list (complex F))) n i h tr :
  i <= length vecs ->
  for_each (seq i n)
    (fun ii => match vecs !! ii with
               | Some v => emit (EvSetFull v)
               | None => raise IndexError
               end) (State h tr)
  = if decide (i + n <= length vecs)
    then (Ok tt, State h (tr ++ (EvSetFull <$> take n (drop i vecs))))
    else (Raise IndexError, State h (tr ++ (EvSetFull <$> drop i vecs))).
Proof.
  revert i tr. induction n as [|n IH]; intros i tr Hi; simpl.
  - rewrite decide_True by lia. by rewrite app_nil_r.
  - destruct (vecs !! i) as [v|] eqn:Hv.
    + run_ok (emit_run (EvSetFull v) (State h tr)). simpl.
      rewrite (drop_S _ _ _ Hv).
      apply lookup_lt_Some in Hv.
      rewrite IH by lia.
      repeat case_decide; try lia; simpl; by rewrite <- app_assoc.
    + apply lookup_ge_None in Hv.
      rewrite drop_ge by lia. rewrite decide_False by lia.
      by rewrite app_nil_r.
Qed.

Lemma save_eigenvectors_run iv eigs svecs (s : state F) :
  save_eigenvectors make_full_vec iv eigs svecs s
  = ((save_outcome iv eigs svecs).2,
     State (st_heap s) (st_trace s ++ (save_outcome iv eigs svecs).1)).
Proof.
  unfold save_eigenvectors, save_outcome.
  run_ok (for_each_emit EvMakeFullVec svecs s).
  unfold bind. rewrite for_each_set_full by lia. simpl.
  rewrite drop_0.
  case_decide; simpl.
  - rewrite emit_run. simpl. by rewrite <- !app_assoc.
  - by rewrite <- !app_assoc.
Qed.

Lemma assemble_run wmag (s : state F) :
  holds s ->
  match mtx_a_of K S R wmag with
  | Ok A =>
      exists a s', assemble mtx_m mtx_k mtx_s mtx_r wmag s = (Ok (a, mtx_m), s') /\
        heap_grows s s' /\ st_heap s' !! a = Some A /\ st_heap s !! a = None
  | Raise e =>
      exists s', assemble mtx_m mtx_k mtx_s mtx_r wmag s = (Raise e, s') /\
        heap_grows s s'
  end.
Proof.
  intros (Hm & Hk & Hs & Hr).
  unfold assemble, mtx_a_of, py_scale, py_add, py_cscale.
  destruct (py_unop_run (obj_scale (smul wmag wmag)) _ _ _ Hs)
    as (t1 & s1 & Hrun1 & Hg1 & Ht1 & _).
  run_ok Hrun1.
  pose proof (heap_grows_lookup _ _ _ _ Hg1 Hk) as Hk1.
  pose proof (heap_grows_lookup _ _ _ _ Hg1 Hr) as Hr1.
  destruct (obj_add K (obj_scale (smul wmag wmag) S)) as [t2v|e] eqn:Hadd.
  - destruct (py_binop_Ok _ _ _ _ _ _ _ Hk1 Ht1 Hadd)
      as (t2 & s2 & Hrun2 & Hg2 & Ht2 & _).
    run_ok Hrun2.
    pose proof (heap_grows_lookup _ _ _ _ Hg2 Hr1) as Hr2.
    destruct (py_unop_run (obj_cscale (cmul c_j (of_real wmag))) _ _ _ Hr2)
      as (t3 & s3 & Hrun3 & Hg3 & Ht3 & _).
    run_ok Hrun3.
    pose proof (heap_grows_lookup _ _ _ _ Hg3 Ht2) as Ht2'.
    pose proof (heap_grows_trans _ _ _ (heap_grows_trans _ _ _ Hg1 Hg2) Hg3) as Hg.
    destruct (obj_add t2v _) as [A|e] eqn:Hadd2.
    + destruct (py_binop_Ok _ _ _ _ _ _ _ Ht2' Ht3 Hadd2)
        as (a & s4 & Hrun4 & Hg4 & Ha & Hfresh).
      run_ok Hrun4. exists a, s4. repeat split; try done.
      * by etrans; [apply Hg|apply Hg4].
      * destruct Hg4 as [_ ->]. by destruct Hg.
      * destruct (st_heap s !! a) as [o|] eqn:Hsa; [|done].
        pose proof (heap_grows_lookup _ _ _ _ Hg Hsa). congruence.
    + exists s3. split; [|done].
      apply bind_Raise. by eapply py_binop_Raise.
  - exists s1. split; [|done].
    apply bind_Raise. by eapply py_binop_Raise.
Qed.

Lemma hermitian_check_run a A (s : state F) :
  st_heap s !! a = Some A ->
  exists s', (h <~ py_H a ;; _max_diff_csr a h) s
             = (max_diff_of A (obj_H A), s') /\ heap_grows s s'.
Proof.
  intros Ha. unfold py_H.
  destruct (py_unop_run obj_H _ _ _ Ha) as (h & s1 & Hrun & Hg & Hh & _).
  run_ok Hrun.
  destruct (max_diff_csr_run a h _ _ s1 (heap_grows_lookup _ _ _ _ Hg Ha) Hh)
    as (s2 & -> & Hg2).
  exists s2. split; [done|]. by eapply heap_grows_trans.
Qed.

Lemma call_eig_solver_run a b A B vectors (s : state F) :
  st_heap s !! a = Some A -> st_heap s !! b = Some B ->
  call_eig_solver eig_solver opts a b vectors s
  = (eig_solver A B (n_eigs opts) vectors,
     State (st_heap s) (st_trace s ++ [EvSolve A B (n_eigs opts) vectors])).
Proof.
  intros Ha Hb. unfold call_eig_solver.
  run_ok (load_run _ _ _ Ha). run_ok (load_run _ _ _ Hb).
  by run_ok (emit_run (EvSolve A B (n_eigs opts) vectors) s).
Qed.

Lemma step_run iv wmag (s : state F) :
  holds s ->
  exists s',
    step eig_solver make_full_vec opts mtx_m mtx_k mtx_s mtx_r wdir cp cs
      iv wmag s = ((step_outcome iv wmag).2, s') /\
    st_heap s ⊆ st_heap s' /\
    st_trace s' = st_trace s ++ (step_outcome iv wmag).1.
Proof.
  intros Hs. unfold step, step_outcome, solve_outcome.
  run_ok (emit_run (EvOutputStep iv (smul wmag <$> wdir)) s).
  set (s0 := State _ _).
  assert (holds s0) as Hs0 by exact Hs.
  pose proof (assemble_run wmag s0 Hs0) as Hasm.
  destruct (mtx_a_of K S R wmag) as [A|e].
  2:{ destruct Hasm as (s1 & Hrun & Hsub & Htr).
      exists s1. rewrite (bind_Raise _ _ _ _ _ Hrun). done. }
  destruct Hasm as (a & s1 & Hrun & Hg1 & Ha & _).
  run_ok Hrun. simpl.
  destruct (hermitian_check_run a A s1 Ha) as (s2 & Hchk & Hg2).
  pose proof (heap_grows_trans _ _ _ Hg1 Hg2) as [Hsub Htr].
  destruct (max_diff_of A (obj_H A)) as [d|e].
  2:{ exists s2. rewrite (bind_Raise _ _ _ _ _ Hchk). done. }
  run_ok Hchk.
  run_ok (emit_run (EvOutput "symmetry check of complex matrix A - A^H:" [d]) s2).
  set (s3 := State _ _).
  assert (st_heap s3 !! a = Some A) as Ha3.
  { eapply lookup_weaken; [exact Ha|apply Hg2]. }
  assert (st_heap s3 !! mtx_m = Some oM) as Hm3.
  { eapply lookup_weaken; [apply Hs|exact Hsub]. }
  pose proof (call_eig_solver_run a mtx_m A oM (negb (eigs_only opts)) s3 Ha3 Hm3)
    as Hcall.
  assert (forall (k : list F * option (list (list (complex F))) -> M F unit),
    bind (if eigs_only opts
          then r <~ call_eig_solver eig_solver opts a mtx_m false ;; ret (r.1, None)
          else r <~ call_eig_solver eig_solver opts a mtx_m true ;; ret (r.1, Some r.2))
         k s3
    = match eig_solver A oM (n_eigs opts) (negb (eigs_only opts)) with
      | Ok r => k (r.1, if eigs_only opts then None else Some r.2)
                  (State (st_heap s3)
                     (st_trace s3 ++ [EvSolve A oM (n_eigs opts)
                                        (negb (eigs_only opts))]))
      | Raise e => (Raise e, State (st_heap s3)
                     (st_trace s3 ++ [EvSolve A oM (n_eigs opts)
                                        (negb (eigs_only opts))]))
      end) as Hsolve.
  { intros k. unfold bind at 1.
    destruct (eigs_only opts); simpl in *; unfold bind; rewrite Hcall;
      by destruct (eig_solver _ _ _ _). }
  rewrite Hsolve. clear Hsolve Hcall.
  destruct (eig_solver A oM (n_eigs opts) (negb (eigs_only opts)))
    as [[eigs svecs]|e]; simpl.
  2:{ eexists. split; [done|]. simpl. rewrite Htr. simpl.
      split; [done|]. by rewrite <- !app_assoc. }
  set (s4 := State _ _).
  match goal with |- context [emit ?e] => run_ok (emit_run e s4) end.
  match goal with |- context [emit ?e] =>
    match goal with |- context [bind _ _ ?s'] => run_ok (emit_run e s') end end.
  simpl. destruct (eigs_only opts); simpl.
  - eexists. split; [done|]. simpl. rewrite Htr. simpl.
    split; [done|]. by rewrite <- !app_assoc.
  - rewrite save_eigenvectors_run. simpl.
    eexists. split; [done|]. simpl. rewrite Htr. simpl.
    split; [done|]. by rewrite <- !app_assoc.
Qed.

Lemma loop_run steps (s : state F) :
  holds s ->
  exists s',
    for_each steps
      (fun p => step eig_solver make_full_vec opts mtx_m mtx_k mtx_s mtx_r
                  wdir cp cs p.1 p.2) s
    = ((loop_outcome steps).2, s') /\
    st_heap s ⊆ st_heap s' /\
    st_trace s' = st_trace s ++ (loop_outcome steps).1.
Proof.
  revert s. induction steps as [|p rest IH]; intros s Hs; simpl.
  - exists s. by rewrite app_nil_r.
  - destruct (step_run p.1 p.2 s Hs) as (s1 & Hrun & Hsub & Htr).
    destruct (step_outcome p.1 p.2) as [ev [[]|e]]; simpl in *.
    + run_ok Hrun.
      destruct (IH s1 (holds_grows _ _ Hs Hsub)) as (s2 & Hrun2 & Hsub2 & Htr2).
      exists s2. split; [done|]. split; [by etrans|].
      by rewrite Htr2, Htr, <- app_assoc.
    + exists s1. by rewrite (bind_Raise _ _ _ _ _ Hrun).
Qed.

Lemma sweep_run wmag_stepper (s : state F) :
  holds s ->
  exists s',
    sweep eig_solver make_full_vec opts mtx_m mtx_k mtx_s mtx_r wdir cp cs
      wmag_stepper s = ((sweep_outcome wmag_stepper).2, s') /\
    st_heap s ⊆ st_heap s' /\
    st_trace s' = st_trace s ++ (sweep_outcome wmag_stepper).1.
Proof.
  intros Hs. unfold sweep, sweep_outcome.
  destruct (loop_run (enumerate wmag_stepper) s Hs) as (s1 & Hrun & Hsub & Htr).
  destruct (loop_outcome (enumerate wmag_stepper)) as [ev [[]|e]]; simpl in *.
  - run_ok Hrun. run_ok (emit_run EvLogSaveFigure s1).
    eexists. split; [done|]. simpl. split; [done|].
    by rewrite Htr, <- !app_assoc.
  - exists s1. by rewrite (bind_Raise _ _ _ _ _ Hrun).
Qed.
End OutcomeFacts.

(* ===================================================================== *)
(** ** Stored entries of the operators *)
(* ===================================================================== *)

Section Entries.
Context {F : Type} `{Scalar F}.

Section AnyDtype.
Context {E : Type} `{Dtype F E}.

Lemma sp_binop_Ok (op : E -> E -> E) (m1 m2 : spmatrix E) :
  shape m1 = shape m2 ->
  sp_binop op m1 m2
  = Ok (SpMatrix (shape m1) (merge (binop_entry op) (entries m1) (entries m2))).
Proof. intros Hs. unfold sp_binop. by rewrite decide_True. Qed.

Lemma sp_binop_shape (op : E -> E -> E) (m1 m2 m : spmatrix E) :
  sp_binop op m1 m2 = Ok m -> shape m1 = shape m2 /\ shape m = shape m1.
Proof.
  unfold sp_binop. case_decide; [|done]. intros [= <-]. done.
Qed.

Lemma diag_None_binop_entry (op : E -> E -> E) a b :
  diag_None (binop_entry op) a b = binop_entry op a b.
Proof. by destruct a, b. Qed.

Lemma sp_binop_lookup (op : E -> E -> E) (m1 m2 m : spmatrix E) ij :
  sp_binop op m1 m2 = Ok m ->
  entries m !! ij = binop_entry op (entries m1 !! ij) (entries m2 !! ij).
Proof.
  unfold sp_binop. case_decide; [|done]. intros [= <-]. simpl.
  by rewrite lookup_merge, diag_None_binop_entry.
Qed.

(** A binary operator never stores a zero. *)
Lemma binop_entry_nonzero (op : E -> E -> E) a b v :
  binop_entry op a b = Some v -> dnonzero v = true.
Proof.
  unfold binop_entry.
  destruct a, b; try done; simpl;
    (destruct (dnonzero _) eqn:Hnz; [by intros [= <-]|done]).
Qed.

Lemma sp_binop_data_nonzero (op : E -> E -> E) (m1 m2 m : spmatrix E) :
  sp_binop op m1 m2 = Ok m -> Forall (fun v => dnonzero v = true) (mat_data m).
Proof.
  intros Hm. apply Forall_forall. intros v Hv.
  unfold mat_data in Hv.
  apply list_elem_of_fmap in Hv as ([ij v'] & -> & Hin).
  apply elem_of_map_to_list in Hin.
  rewrite (sp_binop_lookup _ _ _ _ _ Hm) in Hin.
  by eapply binop_entry_nonzero.
Qed.

Lemma sp_T_lookup (m : spmatrix E) i j :
  entries (sp_T m) !! (i, j) = entries m !! (j, i).
Proof.
  unfold sp_T. simpl.
  change (i, j) with (prod_swap (j, i)).
  rewrite lookup_kmap; [done|apply _].
Qed.

Lemma mat_data_empty (m : spmatrix E) : entries m = ∅ -> mat_data m = [].
Proof. intros Hm. unfold mat_data. by rewrite Hm, map_to_list_empty. Qed.
End AnyDtype.
End Entries.

(* ===================================================================== *)
(** ** The assembled matrix *)
(* ===================================================================== *)

Section Assembled.
Context {F : Type} `{Scalar F}.

(** On three real blocks of one shape, line 363 builds a complex matrix of
    that shape. *)
Lemma mtx_a_of_real (K S R : spmatrix F) (wmag : F) :
  shape S = shape K -> shape R = shape K ->
  exists A : spmatrix (complex F),
    mtx_a_of (RealMat K) (RealMat S) (RealMat R) wmag = Ok (CplxMat A) /\
    shape A = shape K /\
    forall ij, entries A !! ij
               = a_entry wmag (entries K !! ij) (entries S !! ij) (entries R !! ij).
Proof.
  intros HS HR. unfold mtx_a_of, obj_add, obj_binop. simpl.
  unfold sp_add at 1. rewrite sp_binop_Ok by done. simpl.
  unfold sp_add. rewrite sp_binop_Ok by (simpl; congruence). simpl.
  eexists. split; [reflexivity|]. split; [done|].
  intros ij. simpl. unfold a_entry.
  rewrite lookup_merge, !lookup_fmap, lookup_merge, lookup_fmap.
  by rewrite !diag_None_binop_entry.
Qed.

(** A complex object of square shape has a difference with its conjugate
    transpose: the Hermitian check does not raise. *)
Lemma max_diff_of_Ok (o1 o2 : obj F) :
  obj_shape o1 = obj_shape o2 -> exists v, max_diff_of o1 o2 = Ok v.
Proof.
  intros Hs. unfold max_diff_of, obj_sub, obj_binop.
  assert (forall E `{Dtype F E} (x y : spmatrix E), shape x = shape y ->
            exists d, sp_sub x y = Ok d) as Hsub.
  { intros E ? x y Hxy. unfold sp_sub. rewrite sp_binop_Ok by done. eauto. }
  assert (forall d : obj F,
    exists v, (let aux := obj_abs_data d in
               if bool_decide (length aux ≠ 0) then np_max aux else Ok szero)
              = Ok v) as Hmax.
  { intros d. simpl. case_bool_decide as Hlen; [|eauto].
    destruct (obj_abs_data d); [done|]. simpl. eauto. }
  destruct o1 as [a|a], o2 as [b|b]; simpl in *.
  - destruct (Hsub _ _ a b Hs) as [d ->]. apply Hmax.
  - destruct (Hsub _ _ (sp_upcast a) b Hs) as [d ->]. apply Hmax.
  - destruct (Hsub _ _ a (sp_upcast b) Hs) as [d ->]. apply Hmax.
  - destruct (Hsub _ _ a b Hs) as [d ->]. apply Hmax.
Qed.
End Assembled.

(* ===================================================================== *)
(** ** Exact arithmetic *)
(* ===================================================================== *)

Section Exact.
Context {F : Type} `{ScalarLaws F}.

Add Ring scalar_ring : s_ring.

Lemma real_nonzero (x : F) : dnonzero x = false <-> x = dzero.
Proof. apply s_nonzero. Qed.

Lemma complex_nonzero (z : complex F) : dnonzero z = false <-> z = dzero.
Proof.
  destruct z as [a b]. simpl. unfold cnonzero, of_real. simpl.
  rewrite orb_false_iff, !s_nonzero. split.
  - by intros [-> ->].
  - by intros [= -> ->].
Qed.

Lemma default_canon {E} `{Dtype F E}
    (Hnz : forall x : E, dnonzero x = false <-> x = dzero) (v : E) :
  default dzero (canon v) = v.
Proof.
  unfold canon. destruct (dnonzero v) eqn:Hv; [done|].
  simpl. symmetry. by apply Hnz.
Qed.

Lemma binop_entry_canon {E} `{Dtype F E}
    (Hnz : forall x : E, dnonzero x = false <-> x = dzero)
    (op : E -> E -> E) (Hop : op dzero dzero = dzero) a b :
  binop_entry op a b = canon (op (default dzero a) (default dzero b)).
Proof.
  unfold binop_entry, canon. destruct a, b; try done.
  simpl. rewrite Hop.
  by rewrite (proj2 (Hnz dzero) eq_refl).
Qed.

Lemma a_entry_exact (wmag : F) (k s r : option F) :
  a_entry wmag k s r
  = canon (a_value wmag (default szero k) (default szero s) (default szero r)).
Proof.
  unfold a_entry.
  rewrite (binop_entry_canon complex_nonzero).
  2:{ simpl. unfold cadd, of_real. simpl. f_equal; ring. }
  rewrite (binop_entry_canon real_nonzero).
  2:{ simpl. ring. }
  f_equal.
  assert (forall x : option F,
    default dzero (of_real <$> x) = of_real (default szero x)) as ->
    by (by intros []).
  rewrite (default_canon real_nonzero).
  destruct k as [k|], s as [s|], r as [r|]; simpl;
    unfold a_value, cadd, cmul, c_j, of_real; simpl; f_equal; ring.
Qed.

(** The entries of the assembled matrix: [K + κ²·S + i·κ·R] entry by entry,
    each stored exactly when it is not zero. *)
Lemma mtx_a_exact (K S R : spmatrix F) (wmag : F) :
  shape S = shape K -> shape R = shape K ->
  exists A : spmatrix (complex F),
    mtx_a_of (RealMat K) (RealMat S) (RealMat R) wmag = Ok (CplxMat A) /\
    shape A = shape K /\
    forall i j, entries A !! (i, j)
                = canon (a_value wmag (mat_get K i j) (mat_get S i j)
                           (mat_get R i j)).
Proof.
  intros HS HR.
  destruct (mtx_a_of_real K S R wmag HS HR) as (A & HA & Hshape & Hent).
  exists A. repeat split; try done.
  intros i j. by rewrite Hent, a_entry_exact.
Qed.


Lemma canon_conj (z : complex F) : conj <$> canon z = canon (conj z).
Proof.
  unfold canon. simpl. unfold cnonzero. destruct z as [a b]. simpl.
  assert (snonzero (sopp b) = snonzero b) as ->.
  { destruct (snonzero b) eqn:Hb.
    - destruct (snonzero (sopp b)) eqn:Hb'; [done|].
      apply s_nonzero in Hb'.
      assert (b = szero) as Hz by (transitivity (sopp (sopp b)); [ring|rewrite Hb'; ring]).
      apply s_nonzero in Hz. congruence.
    - apply s_nonzero in Hb. subst b. apply s_nonzero. ring. }
  by destruct (snonzero a || snonzero b).
Qed.

End Exact.

(* ===================================================================== *)
(** ** Reading the trace *)
(* ===================================================================== *)

Section Traces.
Context {F : Type} `{Scalar F}.
Variable eig_solver :
  obj F -> obj F -> Z -> bool -> result (list F * list (list (complex F))).
Variable make_full_vec : list (complex F) -> list (complex F).
Variable opts : options.
Variable wdir : list F.
Variables cp cs : F.
Variables oM K S R : obj F.

#[local] Abbreviation step_outcome :=
  (step_outcome eig_solver make_full_vec opts wdir cp cs oM K S R).
#[local] Abbreviation loop_outcome :=
  (loop_outcome eig_solver make_full_vec opts wdir cp cs oM K S R).
#[local] Abbreviation solve_outcome :=
  (solve_outcome eig_solver make_full_vec opts wdir cp cs oM).

Lemma enumerate_from_cons {A} i (x : A) l :
  enumerate_from i (x :: l) = (i, x) :: enumerate_from (Datatypes.S i) l.
Proof. reflexivity. Qed.

Lemma enumerate_from_app {A} i (l1 l2 : list A) :
  enumerate_from i (l1 ++ l2)
  = enumerate_from i l1 ++ enumerate_from (i + length l1) l2.
Proof.
  revert i. induction l1 as [|x l1 IH]; intros i; simpl.
  - by rewrite Nat.add_0_r.
  - rewrite !enumerate_from_cons, IH. simpl.
    by rewrite Nat.add_succ_r.
Qed.

Lemma enumerate_from_snd {A} i (l : list A) : (enumerate_from i l).*2 = l.
Proof.
  revert i. induction l as [|x l IH]; intros i; [done|].
  rewrite enumerate_from_cons. simpl. by rewrite IH.
Qed.

(** The loop over two lists of steps, when the first list returns. *)
Lemma loop_outcome_app l1 l2 ev1 :
  loop_outcome l1 = (ev1, Ok tt) ->
  loop_outcome (l1 ++ l2)
  = (ev1 ++ (loop_outcome l2).1, (loop_outcome l2).2).
Proof.
  revert ev1. induction l1 as [|p l1 IH]; intros ev1; simpl.
  - intros [= <-]. by destruct (loop_outcome l2).
  - destruct (step_outcome p.1 p.2) as [ev [[]|e]]; simpl; [|done].
    destruct (loop_outcome l1) as [ev' r'] eqn:Hl1. simpl.
    intros [= <- ->]. rewrite (IH ev' eq_refl). simpl.
    by rewrite app_assoc.
Qed.

(** The events of a step in which the solver returns. *)
Lemma solve_outcome_Ok iv wmag A d eigs svecs :
  eig_solver A oM (n_eigs opts) (negb (eigs_only opts)) = Ok (eigs, svecs) ->
  (eigs_only opts = false -> length eigs <= length svecs) ->
  exists tl,
    solve_outcome iv wmag A d
    = ([EvOutputStep iv (smul wmag <$> wdir);
        EvOutput "symmetry check of complex matrix A - A^H:" [d];
        EvSolve A oM (n_eigs opts) (negb (eigs_only opts));
        EvOutput "eigs, omegas:" (eigs ++ np_sqrt eigs);
        EvLog (record_out opts cp cs wmag eigs) [wmag; wmag]] ++ tl, Ok tt) /\
    log_records tl = [] /\ solver_calls tl = [] /\
    (eigs_only opts = true -> tl = []).
Proof.
  intros Hsolve Hlen. unfold solve_outcome. rewrite Hsolve.
  assert ((if log_std_waves opts
           then (eigs ++ np_sqrt eigs) ++ [smul cp wmag; smul cs wmag]
           else eigs ++ np_sqrt eigs) = record_out opts cp cs wmag eigs) as ->.
  { unfold record_out. destruct (log_std_waves opts).
    - by rewrite <- app_assoc.
    - by rewrite app_nil_r. }
  destruct (eigs_only opts) eqn:Ho.
  - exists []. rewrite app_nil_r. done.
  - unfold save_outcome. rewrite length_fmap.
    rewrite decide_True by auto. simpl.
    eexists. split; [reflexivity|].
    unfold log_records, solver_calls. rewrite !omap_app.
    assert (forall {X Y} (g : X -> event F) (f : event F -> option Y) (l : list X),
              (forall x, f (g x) = None) -> omap f (g <$> l) = []) as Hnone.
    { intros X Y g f l Hg. induction l as [|x l IH]; simpl; [done|].
      by rewrite Hg. }
    rewrite !Hnone by done. done.
Qed.

(** The events of a step in which the solver raises: the call of the solver
    is the last one. *)
Lemma solve_outcome_Raise iv wmag A d e :
  eig_solver A oM (n_eigs opts) (negb (eigs_only opts)) = Raise e ->
  solve_outcome iv wmag A d
  = ([EvOutputStep iv (smul wmag <$> wdir);
      EvOutput "symmetry check of complex matrix A - A^H:" [d];
      EvSolve A oM (n_eigs opts) (negb (eigs_only opts))], Raise e).
Proof. intros Hsolve. unfold solve_outcome. by rewrite Hsolve. Qed.

(** The events of a step in which the solver returns, up to the call of
    [log], whatever the eigenvector branch does afterwards. *)
Lemma solve_outcome_returned iv wmag A d eigs svecs :
  eig_solver A oM (n_eigs opts) (negb (eigs_only opts)) = Ok (eigs, svecs) ->
  exists tl r,
    solve_outcome iv wmag A d
    = ([EvOutputStep iv (smul wmag <$> wdir);
        EvOutput "symmetry check of complex matrix A - A^H:" [d];
        EvSolve A oM (n_eigs opts) (negb (eigs_only opts))]
         ++ [EvOutput "eigs, omegas:" (eigs ++ np_sqrt eigs);
             EvLog (record_out opts cp cs wmag eigs) [wmag; wmag]] ++ tl, r) /\
    log_records tl = [].
Proof.
  intros Hsolve. unfold solve_outcome. rewrite Hsolve.
  assert ((if log_std_waves opts
           then (eigs ++ np_sqrt eigs) ++ [smul cp wmag; smul cs wmag]
           else eigs ++ np_sqrt eigs) = record_out opts cp cs wmag eigs) as ->.
  { unfold record_out. destruct (log_std_waves opts).
    - by rewrite <- app_assoc.
    - by rewrite app_nil_r. }
  destruct (eigs_only opts).
  - exists [], (Ok tt). by rewrite app_nil_r.
  - eexists _, _. split; [simpl; reflexivity|].
    assert (forall {X} (g : X -> event F) (l : list X),
              (forall x, match g x with EvLog _ _ => False | _ => True end) ->
              log_records (g <$> l) = []) as Hnone.
    { intros X g l Hg. induction l as [|x l IH]; [done|]. simpl.
      specialize (Hg x). unfold log_records in *. simpl.
      by destruct (g x). }
    unfold save_outcome. case_decide; simpl; unfold log_records in *;
      rewrite !omap_app, !Hnone by done; done.
Qed.

(** The record of a step in which the solver returns. *)
Lemma solve_outcome_log iv wmag A d eigs svecs :
  eig_solver A oM (n_eigs opts) (negb (eigs_only opts)) = Ok (eigs, svecs) ->
  log_records (solve_outcome iv wmag A d).1
  = [(record_out opts cp cs wmag eigs, [wmag; wmag])].
Proof.
  intros Hsolve.
  destruct (solve_outcome_returned iv wmag A d eigs svecs Hsolve)
    as (tl & r & -> & Htl).
  simpl. unfold log_records in *. simpl. by rewrite Htl.
Qed.
End Traces.

(* ===================================================================== *)
(** ** The sweep on real square blocks *)
(* ===================================================================== *)

#[export] Instance Z_scalar_laws : ScalarLaws Z.
Proof.
  split.
  - exact InitialRing.Zth.
  - intros x. simpl. rewrite negb_false_iff. apply Z.eqb_eq.
Qed.

Section Blocks.
Context {F : Type} `{Scalar F}.
Variable eig_solver :
  obj F -> obj F -> Z -> bool -> result (list F * list (list (complex F))).
Variable make_full_vec : list (complex F) -> list (complex F).
Variable opts : options.
Variable wdir : list F.
Variables cp cs : F.
Variable oM : obj F.
Variables K S R : spmatrix F.
Variable n : nat.
Hypothesis shape_K : shape K = (n, n).
Hypothesis shape_S : shape S = (n, n).
Hypothesis shape_R : shape R = (n, n).

(** On square blocks of one size the assembly and the Hermitian check
    return, and the step goes on to the solver. *)
Lemma step_outcome_blocks (wmag : F) :
  exists (A : spmatrix (complex F)) (d : F),
    mtx_a_of (RealMat K) (RealMat S) (RealMat R) wmag = Ok (CplxMat A) /\
    shape A = (n, n) /\
    max_diff_of (CplxMat A) (obj_H (CplxMat A)) = Ok d /\
    forall iv,
      step_outcome eig_solver make_full_vec opts wdir cp cs oM
        (RealMat K) (RealMat S) (RealMat R) iv wmag
      = solve_outcome eig_solver make_full_vec opts wdir cp cs oM iv wmag
          (CplxMat A) d.
Proof.
  destruct (mtx_a_of_real K S R wmag) as (A & HA & Hshape & _); [congruence..|].
  destruct (max_diff_of_Ok (CplxMat A) (obj_H (CplxMat A))) as [d Hd].
  { simpl. rewrite Hshape, shape_K. done. }
  exists A, d. repeat split; try done; [congruence|].
  intros iv. unfold step_outcome. by rewrite HA, Hd.
Qed.
End Blocks.

(** A step on square blocks in which the solver returns calls [log] once,
    with the record of what the solver returned, whether or not the
    eigenvector branch raises afterwards. *)
Lemma step_log_record {F : Type} `{Scalar F}
    eig_solver make_full_vec opts (mtx_m mtx_k mtx_s mtx_r : loc)
    (wdir : list F) cp cs (oM : obj F) (K S R : spmatrix F) (n : nat)
    (iv : nat) (wmag : F) (A : obj F) eigs svecs (s : state F) :
  holds mtx_m mtx_k mtx_s mtx_r oM (RealMat K) (RealMat S) (RealMat R) s ->
  shape K = (n, n) -> shape S = (n, n) -> shape R = (n, n) ->
  mtx_a_of (RealMat K) (RealMat S) (RealMat R) wmag = Ok A ->
  eig_solver A oM (n_eigs opts) (negb (eigs_only opts)) = Ok (eigs, svecs) ->
  exists new,
    st_trace (step eig_solver make_full_vec opts mtx_m mtx_k mtx_s mtx_r
                wdir cp cs iv wmag s).2 = st_trace s ++ new /\
    log_records new = [(record_out opts cp cs wmag eigs, [wmag; wmag])].
Proof.
  intros Hs HK HS HR HA Hsolve.
  destruct (step_run eig_solver make_full_vec opts mtx_m mtx_k mtx_s mtx_r
              wdir cp cs _ _ _ _ iv wmag s Hs) as (s' & Hrun & _ & Htr).
  destruct (step_outcome_blocks eig_solver make_full_vec opts wdir cp cs oM
              K S R n HK HS HR wmag) as (A' & d & HA' & _ & _ & Hstep).
  assert (A = CplxMat A') as -> by congruence.
  rewrite Hrun. simpl. eexists. split; [exact Htr|].
  rewrite Hstep. by apply solve_outcome_log with svecs.
Qed.

(* ===================================================================== *)
(** ** The call of the solver in a step *)
(* ===================================================================== *)

Section SolverCalls.
Context {F : Type} `{Scalar F}.

End SolverCalls.


(* ===================================================================== *)
(** ** Hermitian symmetry *)
(* ===================================================================== *)

Section Symmetry.
Context {F : Type} `{ScalarLaws F}.

Add Ring scalar_ring' : s_ring.

(** A matrix that is its own transpose, stored entry by stored entry, is
    symmetric. *)
Lemma symmetric_of_T {E} `{Dtype F E} (m : spmatrix E) :
  sp_T m = m -> forall i j, mat_get m i j = mat_get m j i.
Proof.
  intros HT i j. unfold mat_get.
  rewrite <- (sp_T_lookup m j i). by rewrite HT.
Qed.

(** A real matrix that is the negative of its transpose is antisymmetric. *)
Lemma antisymmetric_of_T (m : spmatrix F) :
  sp_neg (sp_T m) = m -> forall i j, mat_get m i j = sopp (mat_get m j i).
Proof.
  intros HT i j. unfold mat_get.
  rewrite <- HT at 1. simpl. rewrite lookup_fmap.
  change (i, j) with (prod_swap (j, i)). rewrite lookup_kmap by apply _.
  destruct (entries m !! (j, i)); simpl; [done|ring].
Qed.

End Symmetry.




(* ===================================================================== *)
(** ** The base matrices are read only *)
(* ===================================================================== *)

(** C7. In a store where the four names refer to K, M, S, R: every step of
    the sweep, the whole sweep and [main] leave every object of the store
    as it was, so that the four names still refer to the same K, M, S, R;
    the matrix A of a step is a new object, at a reference that was not in
    use, and B is the reference of M. *)
Theorem base_matrices_never_mutated {F : Type} `{Scalar F}
    eig_solver make_full_vec opts (mtx_m mtx_k mtx_s mtx_r : loc)
    (wdir : list F) cp cs (oM K S R : obj F) (s : state F) :
  holds mtx_m mtx_k mtx_s mtx_r oM K S R s ->
  (forall iv wmag,
     let s' := (step eig_solver make_full_vec opts mtx_m mtx_k mtx_s mtx_r
                  wdir cp cs iv wmag s).2 in
     st_heap s ⊆ st_heap s' /\ holds mtx_m mtx_k mtx_s mtx_r oM K S R s') /\
  (forall wmag_stepper,
     let s' := (sweep eig_solver make_full_vec opts mtx_m mtx_k mtx_s mtx_r
                  wdir cp cs wmag_stepper s).2 in
     st_heap s ⊆ st_heap s' /\ holds mtx_m mtx_k mtx_s mtx_r oM K S R s') /\
  (forall wmag_stepper,
     let s' := (main eig_solver make_full_vec opts mtx_m mtx_k mtx_s mtx_r
                  wdir cp cs wmag_stepper s).2 in
     st_heap s ⊆ st_heap s' /\ holds mtx_m mtx_k mtx_s mtx_r oM K S R s') /\
  (forall wmag mtx_a mtx_b s',
     assemble mtx_m mtx_k mtx_s mtx_r wmag s = (Ok (mtx_a, mtx_b), s') ->
     st_heap s !! mtx_a = None /\ mtx_b = mtx_m /\
     st_heap s ⊆ st_heap s' /\ holds mtx_m mtx_k mtx_s mtx_r oM K S R s').
Proof.
  intros Hs.
  assert (forall s', st_heap s ⊆ st_heap s' ->
            st_heap s ⊆ st_heap s' /\ holds mtx_m mtx_k mtx_s mtx_r oM K S R s')
    as Hkeep.
  { intros s' Hsub. split; [done|]. by eapply holds_grows. }
  split; [|split; [|split]].
  - intros iv wmag. apply Hkeep, monotone_step.
  - intros times. apply Hkeep, monotone_sweep.
  - intros times. apply Hkeep, monotone_main.
  - intros wmag mtx_a mtx_b s' Hasm.
    pose proof (assemble_run mtx_m mtx_k mtx_s mtx_r _ _ _ _ wmag s Hs) as Hrun.
    destruct (mtx_a_of K S R wmag).
    + destruct Hrun as (a' & s1 & Hrun & Hg & _ & Hfresh).
      rewrite Hasm in Hrun. injection Hrun as -> -> ->.
      split; [done|]. split; [done|]. apply Hkeep, Hg.
    + destruct Hrun as (s1 & Hrun & _). congruence.
Qed.

Lemma base_matrices_never_mutated_witness :
  (forall iv wmag,
     let s' := (step (solver_1x1 None) (fun v => v) (Options 1 false false)
                  1 2 3 4 [1%float] 0%float 0%float iv wmag float_store).2 in
     st_heap float_store ⊆ st_heap s' /\
     holds 1 2 3 4 (RealMat (block1 2)) (RealMat (block1 4))
       (RealMat (block1 1)) (RealMat empty1) s') /\
  (forall wmag_stepper,
     let s' := (sweep (solver_1x1 None) (fun v => v) (Options 1 false false)
                  1 2 3 4 [1%float] 0%float 0%float wmag_stepper float_store).2 in
     st_heap float_store ⊆ st_heap s' /\
     holds 1 2 3 4 (RealMat (block1 2)) (RealMat (block1 4))
       (RealMat (block1 1)) (RealMat empty1) s') /\
  (forall wmag_stepper,
     let s' := (main (solver_1x1 None) (fun v => v) (Options 1 false false)
                  1 2 3 4 [1%float] 0%float 0%float wmag_stepper float_store).2 in
     st_heap float_store ⊆ st_heap s' /\
     holds 1 2 3 4 (RealMat (block1 2)) (RealMat (block1 4))
       (RealMat (block1 1)) (RealMat empty1) s') /\
  (forall wmag mtx_a mtx_b s',
     assemble 1 2 3 4 wmag float_store = (Ok (mtx_a, mtx_b), s') ->
     st_heap float_store !! mtx_a = None /\ mtx_b = 1%positive /\
     st_heap float_store ⊆ st_heap s' /\
     holds 1 2 3 4 (RealMat (block1 2)) (RealMat (block1 4))
       (RealMat (block1 1)) (RealMat empty1) s').
Proof.
  refine (base_matrices_never_mutated (solver_1x1 None) (fun v => v)
            (Options 1 false false) 1 2 3 4 [1%float] 0%float 0%float
            (RealMat (block1 2)) (RealMat (block1 4)) (RealMat (block1 1))
            (RealMat empty1) float_store _).
  repeat split; reflexivity.
Defined.

(* ===================================================================== *)
(** ** The symmetry diagnostic *)
(* ===================================================================== *)

Section Diagnostic.
Context {F : Type} `{Scalar F}.

Lemma filter_all_length {A} (P : A -> Prop) `{forall x, Decision (P x)}
    (l : list A) :
  Forall P l -> length (filter P l) = length l.
Proof.
  induction 1 as [|x l Hx _ IH]; [done|].
  rewrite filter_cons_True by done. simpl. by rewrite IH.
Qed.

(** The difference of two objects stores no zero. *)
Lemma obj_sub_nnz (o1 o2 d : obj F) :
  obj_sub o1 o2 = Ok d -> obj_nnz d = length (obj_abs_data d).
Proof.
  unfold obj_sub, obj_binop.
  assert (forall E `{Dtype F E} (a b m : spmatrix E), sp_sub a b = Ok m ->
            length (filter (fun v => dnonzero v = true) (mat_data m))
            = length (dabs <$> mat_data m)) as Hlen.
  { intros E ? a b m Hm. rewrite length_fmap.
    apply filter_all_length. by eapply sp_binop_data_nonzero. }
  destruct o1 as [a|a], o2 as [b|b];
    (destruct (sp_sub _ _) as [m|e] eqn:Hm; [|done]);
    intros [= <-]; exact (Hlen _ _ _ _ _ Hm).
Qed.

Lemma obj_sub_Ok (o1 o2 : obj F) :
  obj_shape o1 = obj_shape o2 -> exists d, obj_sub o1 o2 = Ok d.
Proof.
  intros Hs. unfold obj_sub, obj_binop, sp_sub.
  destruct o1 as [a|a], o2 as [b|b]; simpl in *;
    rewrite sp_binop_Ok by done; eauto.
Qed.

(** A matrix that stores nothing differs from its transpose by nothing. *)
Lemma max_diff_of_empty (o : obj F) (n : nat) :
  obj_shape o = (n, n) -> obj_nstored o = 0 ->
  max_diff_of o (obj_T o) = Ok szero.
Proof.
  intros Hshape Hsize. unfold max_diff_of, obj_sub, obj_binop, sp_sub.
  assert (forall E `{Dtype F E} (m : spmatrix E) (op : E -> E -> E),
            shape m = (n, n) -> size (entries m) = 0 ->
            exists d, sp_binop op m (sp_T m) = Ok d /\ mat_data d = []) as Hd.
  { intros E ? m op Hm Hsz. apply map_size_empty_iff in Hsz.
    rewrite sp_binop_Ok by (simpl; by rewrite Hm).
    eexists. split; [done|]. apply mat_data_empty. simpl.
    rewrite Hsz, kmap_empty. apply map_eq. intros ij.
    by rewrite lookup_merge, !lookup_empty. }
  destruct o as [m|m]; simpl in *.
  - destruct (Hd _ _ m ssub Hshape Hsize) as (d & -> & Hdata).
    simpl. by rewrite Hdata.
  - destruct (Hd _ _ m csub Hshape Hsize) as (d & -> & Hdata).
    simpl. by rewrite Hdata.
Qed.
End Diagnostic.

(** C8. For two matrix objects of one shape the diagnostic returns a value
    and does not raise: [max] is never taken of an empty array. When their
    difference stores no entry that is not zero, the value is exactly zero;
    in particular a square matrix that stores nothing, checked against its
    transpose, gives exactly zero. *)
Theorem symmetry_diagnostic_without_nonzeros {F : Type} `{Scalar F}
    (mtx1 mtx2 : loc) (o1 o2 : obj F) (n : nat) (s : state F) :
  st_heap s !! mtx1 = Some o1 -> st_heap s !! mtx2 = Some o2 ->
  obj_shape o1 = obj_shape o2 ->
  (exists d v s',
     obj_sub o1 o2 = Ok d /\
     _max_diff_csr mtx1 mtx2 s = (Ok v, s') /\
     (obj_nnz d = 0 -> v = szero)) /\
  (obj_shape o1 = (n, n) -> obj_nstored o1 = 0 ->
   exists s', (t <~ py_T mtx1 ;; _max_diff_csr mtx1 t) s = (Ok szero, s')).
Proof.
  intros Hl1 Hl2 Hshape. split.
  - destruct (obj_sub_Ok o1 o2 Hshape) as [d Hd].
    destruct (max_diff_csr_run mtx1 mtx2 o1 o2 s Hl1 Hl2) as (s' & Hrun & _).
    pose proof (obj_sub_nnz _ _ _ Hd) as Hnnz.
    unfold max_diff_of in Hrun. rewrite Hd in Hrun. simpl in Hrun.
    destruct (obj_abs_data d) as [|x aux] eqn:Haux.
    + exists d, szero, s'. by rewrite Hrun.
    + exists d, (fold_left smax aux x), s'. split; [done|].
      split; [by rewrite Hrun|].
      rewrite Hnnz. done.
  - intros Hsq Hempty. unfold py_T.
    destruct (py_unop_run obj_T _ _ _ Hl1) as (t & s1 & Hrun & Hg & Ht & _).
    run_ok Hrun.
    destruct (max_diff_csr_run mtx1 t o1 (obj_T o1) s1
                (heap_grows_lookup _ _ _ _ Hg Hl1) Ht) as (s' & Hdiff & _).
    exists s'. rewrite Hdiff. by rewrite (max_diff_of_empty o1 n).
Qed.

Lemma symmetry_diagnostic_without_nonzeros_witness :
  (exists d v s',
     obj_sub (RealMat empty1) (RealMat empty1) = Ok d /\
     _max_diff_csr 4 4 float_store = (Ok v, s') /\
     (obj_nnz d = 0 -> v = 0%float)) /\
  (obj_shape (RealMat empty1) = (1, 1) -> obj_nstored (RealMat empty1) = 0 ->
   exists s', (t <~ py_T 4 ;; _max_diff_csr 4 t) float_store = (Ok 0%float, s')).
Proof.
  refine (symmetry_diagnostic_without_nonzeros 4 4 (RealMat empty1)
            (RealMat empty1) 1 float_store _ _ _).
  - reflexivity.
  - reflexivity.
  - reflexivity.
Defined.

(* ===================================================================== *)
(** ** The calls that close the log *)
(* ===================================================================== *)

Section LogClosing.
Context {F : Type} `{Scalar F}.
Variable eig_solver :
  obj F -> obj F -> Z -> bool -> result (list F * list (list (complex F))).
Variable make_full_vec : list (complex F) -> list (complex F).
Variable opts : options.
Variable wdir : list F.
Variables cp cs : F.
Variables oM K S R : obj F.

#[local] Abbreviation open_events :=
  (Forall (fun e : event F => closes_log e = false)).

Lemma step_outcome_open iv wmag :
  open_events
    (step_outcome eig_solver make_full_vec opts wdir cp cs oM K S R iv wmag).1.
Proof.
  unfold step_outcome.
  destruct (mtx_a_of K S R wmag) as [A|e]; [|by repeat constructor].
  destruct (max_diff_of A (obj_H A)) as [d|e]; [|by repeat constructor].
  unfold solve_outcome.
  destruct (eig_solver A oM _ _) as [[eigs svecs]|e]; [|by repeat constructor].
  destruct (eigs_only opts); simpl; [by repeat constructor|].
  repeat (constructor; [done|]).
  unfold save_outcome. case_decide; simpl;
    repeat (apply Forall_app; split); try (by repeat constructor);
    by apply Forall_fmap, Forall_true.
Qed.

Lemma loop_outcome_open steps :
  open_events
    (loop_outcome eig_solver make_full_vec opts wdir cp cs oM K S R steps).1.
Proof.
  induction steps as [|p rest IH]; simpl; [constructor|].
  pose proof (step_outcome_open p.1 p.2) as Hp.
  destruct (step_outcome _ _ _ _ _ _ _ _ _ _ _ _) as [ev [[]|e]]; simpl in *.
  - by apply Forall_app.
  - done.
Qed.
End LogClosing.

(* ===================================================================== *)
(** ** The records and the solver calls of a sweep *)
(* ===================================================================== *)

Section SweepFacts.
Context {F : Type} `{Scalar F}.
Variable eig_solver :
  obj F -> obj F -> Z -> bool -> result (list F * list (list (complex F))).
Variable make_full_vec : list (complex F) -> list (complex F).
Variable opts : options.
Variables mtx_m mtx_k mtx_s mtx_r : loc.
Variable wdir : list F.
Variables cp cs : F.
Variable oM : obj F.
Variables K S R : spmatrix F.
Variable n : nat.
Hypothesis shape_K : shape K = (n, n).
Hypothesis shape_S : shape S = (n, n).
Hypothesis shape_R : shape R = (n, n).

#[local] Abbreviation step_out :=
  (step_outcome eig_solver make_full_vec opts wdir cp cs oM
     (RealMat K) (RealMat S) (RealMat R)).
#[local] Abbreviation loop_out :=
  (loop_outcome eig_solver make_full_vec opts wdir cp cs oM
     (RealMat K) (RealMat S) (RealMat R)).
#[local] Abbreviation sweep_out :=
  (sweep_outcome eig_solver make_full_vec opts wdir cp cs oM
     (RealMat K) (RealMat S) (RealMat R)).
#[local] Abbreviation mtx_a_at :=
  (mtx_a_of (RealMat K) (RealMat S) (RealMat R)).
#[local] Abbreviation solver_returns :=
  (solver_returns eig_solver opts oM (RealMat K) (RealMat S) (RealMat R)).
#[local] Abbreviation record_of :=
  (record_of eig_solver opts cp cs oM (RealMat K) (RealMat S) (RealMat R)).

Lemma step_out_returns iv wmag :
  solver_returns wmag ->
  exists ev rec,
    step_out iv wmag = (ev, Ok tt) /\ record_of wmag rec /\
    log_records ev = [rec] /\ length (solver_calls ev) = 1 /\
    (eigs_only opts = true -> full_vec_calls ev = []).
Proof.
  intros Hret.
  destruct (step_outcome_blocks eig_solver make_full_vec opts wdir cp cs oM
              K S R n shape_K shape_S shape_R wmag)
    as (A & d & HA & _ & _ & Hstep).
  destruct (Hret _ HA) as (eigs & svecs & Hsolve & Hlen).
  destruct (solve_outcome_Ok eig_solver make_full_vec opts wdir cp cs oM
              iv wmag (CplxMat A) d eigs svecs Hsolve Hlen)
    as (tl & Hout & Hlog & Hcalls & Htl).
  eexists _, _. rewrite Hstep, Hout. split; [reflexivity|].
  split; [by exists (CplxMat A), eigs, svecs|].
  unfold log_records, solver_calls in *. rewrite !omap_app, Hlog, Hcalls.
  repeat split; try done.
  intros Ho. by rewrite (Htl Ho).
Qed.

Lemma step_out_raises iv wmag e :
  (forall A, mtx_a_at wmag = Ok A ->
     eig_solver A oM (n_eigs opts) (negb (eigs_only opts)) = Raise e) ->
  exists A d,
    mtx_a_at wmag = Ok A /\
    step_out iv wmag
    = ([EvOutputStep iv (smul wmag <$> wdir);
        EvOutput "symmetry check of complex matrix A - A^H:" [d];
        EvSolve A oM (n_eigs opts) (negb (eigs_only opts))], Raise e).
Proof.
  intros Hraise.
  destruct (step_outcome_blocks eig_solver make_full_vec opts wdir cp cs oM
              K S R n shape_K shape_S shape_R wmag)
    as (A & d & HA & _ & _ & Hstep).
  exists (CplxMat A), d. split; [done|].
  rewrite Hstep. by apply solve_outcome_Raise, Hraise.
Qed.

Lemma loop_out_returns steps :
  Forall (fun p => solver_returns p.2) steps ->
  exists ev,
    loop_out steps = (ev, Ok tt) /\
    Forall2 (fun p rec => record_of p.2 rec) steps (log_records ev) /\
    length (solver_calls ev) = length steps /\
    (eigs_only opts = true -> full_vec_calls ev = []).
Proof.
  induction 1 as [|p rest Hp _ IH]; simpl.
  - exists []. repeat split; try done.
  - destruct (step_out_returns p.1 p.2 Hp) as (ev & rec & -> & Hrec & Hlog & Hn & Hfull).
    destruct IH as (ev' & -> & Hrecs & Hn' & Hfull').
    simpl. eexists. split; [reflexivity|].
    unfold log_records, solver_calls, full_vec_calls in *.
    rewrite !omap_app, !length_app, Hlog, Hn, Hn'.
    repeat split; try done.
    + by constructor.
    + intros Ho. by rewrite Hfull, Hfull'.
Qed.

(** C6, as the code has it. A sweep without eigenvectors ([--eigs-only]) in
    which the solver returns at every magnitude of the stepper: the sweep
    returns; it logs exactly one record per magnitude, in the order of the
    stepper; the record of a magnitude holds the eigenvalues that the solver
    returned for the matrices assembled at that magnitude, as many as the
    solver returned, followed by their square roots (and the optional
    standard waves); and [make_full_vec] is never called. *)
Theorem eigs_only_sweep_records (wmag_stepper : list F) (s : state F) :
  eigs_only opts = true ->
  holds mtx_m mtx_k mtx_s mtx_r oM (RealMat K) (RealMat S) (RealMat R) s ->
  Forall (fun wmag =>
            forall A, mtx_a_at wmag = Ok A ->
              exists eigs svecs,
                eig_solver A oM (n_eigs opts) false = Ok (eigs, svecs))
    wmag_stepper ->
  exists s' new,
    sweep eig_solver make_full_vec opts mtx_m mtx_k mtx_s mtx_r wdir cp cs
      wmag_stepper s = (Ok tt, s') /\
    st_trace s' = st_trace s ++ new /\
    length (log_records new) = length wmag_stepper /\
    Forall2 (fun wmag rec =>
               exists A eigs svecs,
                 mtx_a_at wmag = Ok A /\
                 eig_solver A oM (n_eigs opts) false = Ok (eigs, svecs) /\
                 rec = (eigs ++ np_sqrt eigs
                          ++ (if log_std_waves opts
                              then [smul cp wmag; smul cs wmag] else []),
                        [wmag; wmag]))
      wmag_stepper (log_records new) /\
    full_vec_calls new = [].
Proof.
  intros Ho Hs Hsolver.
  assert (Forall solver_returns wmag_stepper) as Hret.
  { eapply Forall_impl; [exact Hsolver|]. intros wmag Hw A HA.
    destruct (Hw A HA) as (eigs & svecs & Hsolve).
    exists eigs, svecs. rewrite Ho. by split. }
  destruct (loop_out_returns (enumerate_from 0 wmag_stepper))
    as (ev & Hloop & Hrecs & _ & Hfull).
  { apply (Forall_fmap snd solver_returns). by rewrite enumerate_from_snd. }
  destruct (sweep_run eig_solver make_full_vec opts mtx_m mtx_k mtx_s mtx_r
              wdir cp cs _ _ _ _ wmag_stepper s Hs) as (s' & Hrun & _ & Htr).
  unfold sweep_outcome in *.
  change (enumerate wmag_stepper) with (enumerate_from 0 wmag_stepper) in *.
  rewrite Hloop in *. simpl in *.
  exists s', (ev ++ [EvLogSaveFigure; EvLogFinished]).
  split; [done|]. split; [done|].
  assert (log_records (ev ++ [EvLogSaveFigure; EvLogFinished]) = log_records ev)
    as -> by (unfold log_records; rewrite omap_app; simpl; by rewrite app_nil_r).
  assert (Forall2 record_of wmag_stepper (log_records ev)) as Hall.
  { rewrite <- (enumerate_from_snd 0 wmag_stepper) at 1.
    by apply Forall2_fmap_l. }
  split; [symmetry; by eapply Forall2_length|].
  split.
  { eapply Forall2_impl; [exact Hall|].
    intros wmag rec (A & eigs & svecs & HA & Hsolve & ->).
    rewrite Ho in Hsolve. by exists A, eigs, svecs. }
  unfold full_vec_calls in *. rewrite omap_app, (Hfull Ho). done.
Qed.

(** C9, as the code has it. When the eigensolver raises [ConvergenceError]
    at a magnitude, after magnitudes at which it returned: the exception
    leaves the loop, so that the sweep raises [ConvergenceError] and returns
    nothing; the records of the earlier magnitudes, one each and in order,
    were passed to [log]; the solver was called once per magnitude up to
    the failing one and its failing call is the last event, so that nothing
    is retried and no later magnitude is visited; and the log is not
    closed: neither [log(save_figure=...)] nor [log(finished=True)] is
    called. The store keeps its objects. *)
Theorem convergence_error_aborts_sweep (pre post : list F) (wmag : F)
    (s : state F) :
  holds mtx_m mtx_k mtx_s mtx_r oM (RealMat K) (RealMat S) (RealMat R) s ->
  Forall solver_returns pre ->
  (forall A, mtx_a_at wmag = Ok A ->
     eig_solver A oM (n_eigs opts) (negb (eigs_only opts))
     = Raise ConvergenceError) ->
  exists s' new A,
    sweep eig_solver make_full_vec opts mtx_m mtx_k mtx_s mtx_r wdir cp cs
      (pre ++ wmag :: post) s = (Raise ConvergenceError, s') /\
    st_trace s' = st_trace s ++ new /\
    Forall2 record_of pre (log_records new) /\
    length (solver_calls new) = length pre + 1 /\
    mtx_a_at wmag = Ok A /\
    last new = Some (EvSolve A oM (n_eigs opts) (negb (eigs_only opts))) /\
    Forall (fun e => closes_log e = false) new /\
    st_heap s ⊆ st_heap s'.
Proof.
  intros Hs Hpre Hfail.
  destruct (loop_out_returns (enumerate_from 0 pre)) as (ev & Hloop & Hrecs & Hn & _).
  { apply (Forall_fmap snd solver_returns). by rewrite enumerate_from_snd. }
  pose proof (loop_outcome_open eig_solver make_full_vec opts wdir cp cs oM
                (RealMat K) (RealMat S) (RealMat R) (enumerate_from 0 pre))
    as Hopen.
  rewrite Hloop in Hopen. simpl in Hopen.
  destruct (step_out_raises (0 + length pre) wmag ConvergenceError Hfail)
    as (A & d & HA & Hstep).
  destruct (sweep_run eig_solver make_full_vec opts mtx_m mtx_k mtx_s mtx_r
              wdir cp cs _ _ _ _ (pre ++ wmag :: post) s Hs)
    as (s' & Hrun & Hsub & Htr).
  unfold sweep_outcome, enumerate in *.
  change (zip (seq 0 (length (pre ++ wmag :: post))) (pre ++ wmag :: post))
    with (enumerate_from 0 (pre ++ wmag :: post)) in *.
  rewrite enumerate_from_app, enumerate_from_cons in *.
  rewrite (loop_outcome_app _ _ _ _ _ _ _ _ _ _ _ _ _ Hloop) in *.
  simpl in *. rewrite Hstep in *. simpl in *.
  eexists s', _, A. split; [exact Hrun|]. split; [exact Htr|].
  unfold log_records, solver_calls in *. rewrite !omap_app, length_app, Hn.
  simpl. rewrite app_nil_r.
  split; [|split; [|split; [|split; [|split]]]].
  - rewrite <- (enumerate_from_snd 0 pre) at 1. by apply Forall2_fmap_l.
  - unfold enumerate_from. rewrite length_zip_with, length_seq. lia.
  - done.
  - by rewrite last_app.
  - apply Forall_app. split; [done|]. by repeat constructor.
  - done.
Qed.
End SweepFacts.

(* ===================================================================== *)
(** ** Sweeps on the test data *)
(* ===================================================================== *)

(** The default range of the script, [--wave-range 10,100,10]. *)
Example default_wave_range :
  linspace 10 100 10
  = [10; 20; 30; 40; 50; 60; 70; 80; 90; 100]%float.
Proof. vm_compute. reflexivity. Qed.

(** The magnitudes of the records that the default range logs. *)
Example default_sweep_magnitudes :
  (log_records
     (st_trace (sweep (solver_1x1 None) (fun v => v) (Options 1 true false)
                  1 2 3 4 [1%float] 0%float 0%float
                  (linspace 10 100 10) float_store).2)).*2
  = (fun wmag => [wmag; wmag])
      <$> [10; 20; 30; 40; 50; 60; 70; 80; 90; 100]%float.
Proof. vm_compute. reflexivity. Qed.

Lemma eigs_only_sweep_records_witness :
  let solver := solver_1x1 None in
  let opts := Options 1 true false in
  let oM := RealMat (block1 2) in
  let mtx_a_at := mtx_a_of (RealMat (block1 4)) (RealMat (block1 1))
                    (RealMat empty1) in
  exists s' new,
    sweep solver (fun v => v) opts 1 2 3 4 [1%float] 0%float 0%float
      (linspace 10 100 10) float_store = (Ok tt, s') /\
    st_trace s' = st_trace float_store ++ new /\
    length (log_records new) = length (linspace 10 100 10) /\
    Forall2 (fun wmag rec =>
               exists A eigs svecs,
                 mtx_a_at wmag = Ok A /\
                 solver A oM (n_eigs opts) false = Ok (eigs, svecs) /\
                 rec = (eigs ++ np_sqrt eigs
                          ++ (if log_std_waves opts
                              then [smul 0%float wmag; smul 0%float wmag]
                              else []),
                        [wmag; wmag]))
      (linspace 10 100 10) (log_records new) /\
    full_vec_calls new = [].
Proof.
  refine (eigs_only_sweep_records (solver_1x1 None) (fun v => v)
            (Options 1 true false) 1 2 3 4 [1%float] 0%float 0%float
            (RealMat (block1 2)) (block1 4) (block1 1) empty1 1
            eq_refl eq_refl eq_refl (linspace 10 100 10) float_store _ _ _).
  - reflexivity.
  - repeat split; reflexivity.
  - change (linspace 10 100 10)
      with [10; 20; 30; 40; 50; 60; 70; 80; 90; 100]%float.
    repeat (constructor;
            [intros A HA; vm_compute in HA; injection HA as <-;
             eexists _, _; vm_compute; reflexivity|]).
    constructor.
Defined.

(** C6, where it fails. One unknown and two eigenvalues requested, without
    eigenvectors: the sweep over the default range returns and logs ten
    records, and each holds one eigenvalue and one frequency, not two of
    each; the first one is [52, sqrt(52)] at the magnitude 10. *)
Lemma eigs_only_record_size_counterexample :
  let opts := Options 2 true false in
  let r := sweep (solver_1x1 None) (fun v => v) opts 1 2 3 4
             [1%float] 0%float 0%float (linspace 10 100 10) float_store in
  r.1 = Ok tt /\ n_eigs opts = 2%Z /\
  (fun rec => length rec.1) <$> log_records (st_trace r.2) = replicate 10 2 /\
  head (log_records (st_trace r.2))
  = Some ([52%float; PrimFloat.sqrt 52], [10%float; 10%float]).
Proof.
  simpl. repeat split; vm_compute; reflexivity.
Qed.

(** The solver converges at the magnitude 10 (eigenvalue 52) and gives up at
    the magnitude 50 (eigenvalue 1252, above the limit 1000); the magnitude
    90 is never visited. *)
Lemma convergence_error_aborts_sweep_witness :
  let solver := solver_1x1 (Some 1000%float) in
  let opts := Options 1 false false in
  let oM := RealMat (block1 2) in
  exists s' new A,
    sweep solver (fun v => v) opts 1 2 3 4 [1%float] 0%float 0%float
      ([10%float] ++ 50%float :: [90%float]) float_store
    = (Raise ConvergenceError, s') /\
    st_trace s' = st_trace float_store ++ new /\
    Forall2 (record_of solver opts 0%float 0%float oM
               (RealMat (block1 4)) (RealMat (block1 1)) (RealMat empty1))
      [10%float] (log_records new) /\
    length (solver_calls new) = length [10%float] + 1 /\
    mtx_a_of (RealMat (block1 4)) (RealMat (block1 1)) (RealMat empty1) 50%float
    = Ok A /\
    last new = Some (EvSolve A oM (n_eigs opts) (negb (eigs_only opts))) /\
    Forall (fun e => closes_log e = false) new /\
    st_heap float_store ⊆ st_heap s'.
Proof.
  refine (convergence_error_aborts_sweep (solver_1x1 (Some 1000%float))
            (fun v => v) (Options 1 false false) 1 2 3 4 [1%float]
            0%float 0%float (RealMat (block1 2)) (block1 4) (block1 1) empty1 1
            eq_refl eq_refl eq_refl [10%float] [90%float] 50%float
            float_store _ _ _).
  - repeat split; reflexivity.
  - constructor; [|constructor].
    intros A HA. vm_compute in HA. injection HA as <-.
    eexists _, _. split; [vm_compute; reflexivity|]. simpl. lia.
  - intros A HA. vm_compute in HA. injection HA as <-.
    vm_compute. reflexivity.
Defined.

(** C9, where it fails. The same run through [main]: its result is the
    exception, so that nothing is returned; the one record completed before
    the failure was passed to [log], and the log is never closed. *)
Lemma convergence_error_returns_nothing_counterexample :
  let r := main (solver_1x1 (Some 1000%float)) (fun v => v)
             (Options 1 false false) 1 2 3 4 [1%float] 0%float 0%float
             [10; 50; 90]%float float_store in
  r.1 = Raise ConvergenceError /\
  log_records (st_trace r.2)
  = [([52%float; PrimFloat.sqrt 52], [10%float; 10%float])] /\
  Forall (fun e => closes_log e = false) (st_trace r.2).
Proof.
  simpl. split; [vm_compute; reflexivity|].
  split; [vm_compute; reflexivity|].
  vm_compute. repeat constructor.
Qed.


(* ===================================================================== *)
(** ** Square roots and quotients of float64 *)
(* ===================================================================== *)

Section FloatFacts.
Open Scope float_scope.

Lemma float_of_spec (x : float) (f : spec_float) :
  Prim2SF x = f -> x = SF2Prim f.
Proof. intros <-. by rewrite SF2Prim_Prim2SF. Qed.

(** [x == 0] holds of the two zeros only. *)
Lemma float_eqb_zero (x : float) :
  (x =? 0) = true -> x = 0 \/ x = -0.
Proof.
  rewrite FloatAxioms.eqb_spec.
  change (Prim2SF 0) with (S754_zero false).
  destruct (Prim2SF x) as [s|s| |s m e] eqn:Hx;
    [|by destruct s|done|by destruct s].
  intros _. apply float_of_spec in Hx. destruct s; subst x; auto.
Qed.

(** [x < 0] holds of the negative numbers and of minus infinity. *)
Lemma float_ltb_zero (x : float) :
  (x <? 0) = true ->
  Prim2SF x = S754_infinity true \/ exists m e, Prim2SF x = S754_finite true m e.
Proof.
  rewrite FloatAxioms.ltb_spec.
  change (Prim2SF 0) with (S754_zero false).
  destruct (Prim2SF x) as [s|s| |s m e]; [done| |done|].
  - destruct s; [auto|done].
  - destruct s; [eauto|done].
Qed.

(** The square root of a float below zero is NaN. *)
Lemma sqrt_negative (x : float) : (x <? 0) = true -> PrimFloat.sqrt x = nan.
Proof.
  intros Hx. apply Prim2SF_inj. rewrite sqrt_spec.
  change (Prim2SF nan) with S754_nan.
  destruct (float_ltb_zero x Hx) as [->|(m & e & ->)]; reflexivity.
Qed.

Lemma nan_not_zero : nan <> 0.
Proof.
  intros Heq. apply (f_equal PrimFloat.is_nan) in Heq.
  vm_compute in Heq. discriminate.
Qed.

(** The sum of squares of zeros is zero. *)
Lemma sum_squares_zero (x : list float) :
  Forall (fun xi => (xi =? 0) = true) x ->
  fold_left (fun acc xi => acc + xi * xi) x 0 = 0.
Proof.
  induction 1 as [|xi x Hxi _ IH]; [done|]. simpl.
  destruct (float_eqb_zero xi Hxi) as [-> | ->]; exact IH.
Qed.

(** Zeros divided by zero are NaN. *)
Lemma zeros_over_zero (x : list float) :
  Forall (fun xi => (xi =? 0) = true) x ->
  (fun xi => xi / 0) <$> x = replicate (length x) nan.
Proof.
  induction 1 as [|xi x Hxi _ IH]; [done|]. rewrite fmap_cons, IH. simpl.
  by destruct (float_eqb_zero xi Hxi) as [-> | ->].
Qed.
End FloatFacts.

(* ===================================================================== *)
(** ** The arithmetic of float64 around zero *)
(* ===================================================================== *)

Section Float64Arithmetic.
Open Scope float_scope.

Lemma SFeqb_refl_finite s m e :
  SFeqb (S754_finite s m e) (S754_finite s m e) = true.
Proof.
  unfold SFeqb, SFcompare.
  rewrite Z.compare_refl, Pos.compare_cont_refl. by destruct s.
Qed.

Lemma SFeqb_finite s m e s' m' e' :
  SFeqb (S754_finite s m e) (S754_finite s' m' e') = true ->
  s = s' /\ m = m' /\ e = e'.
Proof.
  unfold SFeqb, SFcompare.
  destruct s, s'; try done;
    destruct (Z.compare_spec e e') as [->| |]; try done;
    change (Pos.compare_cont Eq m m') with (Pos.compare m m');
    destruct (Pos.compare_spec m m') as [->| |]; done.
Qed.

Lemma is_nan_spec (x : float) : is_nan x = true <-> Prim2SF x = S754_nan.
Proof.
  unfold is_nan. rewrite FloatAxioms.eqb_spec.
  destruct (Prim2SF x) as [s|s| |s m e]; simpl.
  - done.
  - by destruct s.
  - done.
  - by rewrite SFeqb_refl_finite.
Qed.

Lemma SFeqb_same a b : SFeqb a b = true -> sf_same a b.
Proof.
  destruct a as [s|s| |s m e], b as [s'|s'| |s' m' e']; simpl; try done;
    try (by destruct s); try (by destruct s').
  - by destruct s, s'.
  - apply SFeqb_finite.
Qed.

Lemma same_SFeqb a b : sf_same a b -> SFeqb a b = true \/ (a = S754_nan /\ b = S754_nan).
Proof.
  destruct a as [s|s| |s m e], b as [s'|s'| |s' m' e']; simpl; try done; auto.
  - intros <-. left. by destruct s.
  - intros (<- & <- & <-). left. apply SFeqb_refl_finite.
Qed.

Lemma same_number_spec (x y : float) :
  same_number x y <-> sf_same (Prim2SF x) (Prim2SF y).
Proof.
  unfold same_number. rewrite !is_nan_spec, FloatAxioms.eqb_spec. split.
  - intros [Heq|[-> ->]]; [by apply SFeqb_same|done].
  - apply same_SFeqb.
Qed.

Lemma sf_same_refl a : sf_same a a.
Proof. by destruct a. Qed.

Lemma sf_same_sym a b : sf_same a b -> sf_same b a.
Proof. destruct a, b; simpl; try done. by intros (-> & -> & ->). Qed.

Lemma sf_same_trans a b c : sf_same a b -> sf_same b c -> sf_same a c.
Proof.
  destruct a, b; simpl; try done; destruct c; simpl; try done; try congruence.
  by intros (-> & -> & ->).
Qed.

Lemma same_number_refl x : same_number x x.
Proof. apply same_number_spec, sf_same_refl. Qed.

Lemma same_number_sym x y : same_number x y -> same_number y x.
Proof. rewrite !same_number_spec. apply sf_same_sym. Qed.

Lemma same_number_trans x y z :
  same_number x y -> same_number y z -> same_number x z.
Proof. rewrite !same_number_spec. apply sf_same_trans. Qed.

(** The zeros and the finite numbers, on the specification side. *)
Lemma float_zero_spec (x : float) :
  (x =? 0) = true <-> exists s, Prim2SF x = S754_zero s.
Proof.
  rewrite FloatAxioms.eqb_spec.
  change (Prim2SF 0) with (S754_zero false).
  destruct (Prim2SF x) as [s|s| |s m e]; simpl.
  - split; eauto.
  - destruct s; split; try done; by intros [? ?].
  - split; [done|by intros [? ?]].
  - destruct s; split; try done; by intros [? ?].
Qed.

Lemma is_finite_spec (x : float) :
  is_finite x = true <->
  (exists s, Prim2SF x = S754_zero s) \/ (exists s m e, Prim2SF x = S754_finite s m e).
Proof.
  unfold is_finite, is_infinity.
  rewrite negb_true_iff, orb_false_iff.
  assert (is_nan x = false <-> Prim2SF x <> S754_nan) as ->.
  { rewrite <- is_nan_spec. by destruct (is_nan x). }
  rewrite FloatAxioms.eqb_spec, abs_spec.
  change (Prim2SF infinity) with (S754_infinity false).
  destruct (Prim2SF x) as [s|s| |s m e]; simpl.
  - split; [eauto|done].
  - split; [by intros [_ ?]|]. intros [[? ?]|(? & ? & ? & ?)]; done.
  - split; [by intros [? _]|]. intros [[? ?]|(? & ? & ? & ?)]; done.
  - split; [eauto 10|done].
Qed.

Lemma float_add_zero_r (x z : float) : (z =? 0) = true -> same_number (x + z) x.
Proof.
  rewrite float_zero_spec, same_number_spec, add_spec. intros [sz ->].
  destruct (Prim2SF x) as [[]|[]| |[] m e], sz; simpl; done.
Qed.

Lemma float_add_zero_l (x z : float) : (z =? 0) = true -> same_number (z + x) x.
Proof.
  rewrite float_zero_spec, same_number_spec, add_spec. intros [sz ->].
  destruct (Prim2SF x) as [[]|[]| |[] m e], sz; simpl; done.
Qed.

Lemma float_mul_zero_r (x z : float) :
  is_finite x = true -> (z =? 0) = true -> (x * z =? 0) = true.
Proof.
  rewrite is_finite_spec, !float_zero_spec, mul_spec.
  intros [[s ->]|(s & m & e & ->)] [sz ->]; simpl; eauto.
Qed.

Lemma float_mul_zero_l (x z : float) :
  is_finite x = true -> (z =? 0) = true -> (z * x =? 0) = true.
Proof.
  rewrite is_finite_spec, !float_zero_spec, mul_spec.
  intros [[s ->]|(s & m & e & ->)] [sz ->]; simpl; eauto.
Qed.

Lemma float_sub_zeros (a b : float) :
  (a =? 0) = true -> (b =? 0) = true -> (a - b =? 0) = true.
Proof.
  rewrite !float_zero_spec, sub_spec. intros [sa ->] [sb ->].
  destruct sa, sb; simpl; eauto.
Qed.

Lemma float_zeros_same (a b : float) :
  (a =? 0) = true -> (b =? 0) = true -> same_number a b.
Proof.
  rewrite !float_zero_spec, same_number_spec. by intros [sa ->] [sb ->].
Qed.

Lemma float_zero_is_finite (z : float) : (z =? 0) = true -> is_finite z = true.
Proof. rewrite float_zero_spec, is_finite_spec. auto. Qed.

Lemma float_mul_comm (x y : float) : x * y = y * x.
Proof.
  apply Prim2SF_inj. rewrite !mul_spec.
  destruct (Prim2SF x) as [sx|sx| |sx mx ex], (Prim2SF y) as [sy|sy| |sy my ey];
    simpl; try done; try (by rewrite xorb_comm).
  unfold SF64mul, SFmul.
  by rewrite xorb_comm, Pos.mul_comm, Z.add_comm.
Qed.

(** A square that is finite has a finite root: the magnitude itself is
    neither infinite nor NaN. *)
Lemma float_finite_of_square (x : float) : is_finite (x * x) = true -> is_finite x = true.
Proof.
  rewrite !is_finite_spec, mul_spec.
  destruct (Prim2SF x) as [s|s| |s m e]; simpl; intros Hf; try (by eauto 10);
    by destruct Hf as [[? ?]|(? & ? & ? & ?)].
Qed.

Lemma float_zero_add (x : float) : 0 + x = x \/ (x =? 0) = true.
Proof.
  rewrite float_zero_spec.
  destruct (Prim2SF x) as [s|s| |s m e] eqn:Hx; [right; eauto|left..];
    apply Prim2SF_inj; rewrite add_spec, Hx; by try destruct s.
Qed.

Lemma float_zero_add_finite (x : float) : is_finite x = true -> is_finite (0 + x) = true.
Proof.
  rewrite !is_finite_spec, add_spec.
  change (Prim2SF 0) with (S754_zero false).
  intros [[s ->]|(s & m & e & ->)]; simpl.
  - left. destruct s; eauto.
  - right. eauto.
Qed.

Lemma float_add_zeros (a b : float) :
  (a =? 0) = true -> (b =? 0) = true -> (a + b =? 0) = true.
Proof.
  rewrite !float_zero_spec, add_spec. intros [sa ->] [sb ->].
  destruct sa, sb; simpl; eauto.
Qed.

(** Multiplying by one is exact: the product of the mantissas is shifted
    back by the 52 binary places of the mantissa of [1.0]. *)
Lemma shr_exact (p : positive) :
  SpecFloat.iter_pos shr_1 52%positive
    {| shr_m := Zpos (Pos.mul 4503599627370496%positive p); shr_r := false; shr_s := false |}
  = {| shr_m := Zpos p; shr_r := false; shr_s := false |}.
Proof. reflexivity. Qed.

Lemma digits_shift (p : positive) :
  Zpos (digits2_pos (Pos.mul 4503599627370496%positive p)) = (Zpos (digits2_pos p) + 52)%Z.
Proof.
  simpl. change (1 * p)%positive with p.
  generalize (digits2_pos p). intros q. rewrite !Pos2Z.inj_succ. lia.
Qed.

Lemma float_mul_1_l (x : float) : 1 * x = x.
Proof.
  apply Prim2SF_inj. rewrite mul_spec.
  pose proof (Prim2SF_valid x) as Hv.
  change (Prim2SF 1) with (S754_finite false 4503599627370496%positive (-52)%Z).
  destruct (Prim2SF x) as [s|s| |s m e]; try reflexivity.
  unfold valid_binary, bounded, canonical_mantissa in Hv.
  apply andb_prop in Hv as [Hc Hb].
  apply Z.eqb_eq in Hc. apply Z.leb_le in Hb.
  unfold SF64mul, SFmul, binary_round_aux, shr_fexp.
  unfold Zdigits2. rewrite digits_shift.
  replace (Z.pos (digits2_pos m) + 52 + (-52 + e))%Z with (Z.pos (digits2_pos m) + e)%Z by lia.
  rewrite Hc.
  replace (e - (-52 + e))%Z with 52%Z by lia.
  unfold shr at 1. cbn [shr_record_of_loc]. rewrite shr_exact.
  cbn [shr_m loc_of_shr_record round_nearest_even shr_record_of_loc].
  replace (-52 + e + 52)%Z with e by lia.
  rewrite Hc, Z.sub_diag. cbn [shr shr_m xorb].
  apply Z.leb_le in Hb. by rewrite Hb.
Qed.

(** The scalar [1j * wmag] of line 363 for a finite magnitude: its real part
    is a zero, and its imaginary part is the magnitude, up to the sign of a
    zero. *)
Lemma j_times_wmag (wmag : float) :
  is_finite wmag = true ->
  let c := cmul c_j (of_real wmag) in
  (re c =? 0) = true /\ is_finite (im c) = true /\
  (im c = wmag \/ ((im c =? 0) = true /\ (wmag =? 0) = true)).
Proof.
  intros Hw. simpl.
  change (1 * 0) with 0. change (0 * 0) with 0. rewrite float_mul_1_l.
  split; [|split].
  - apply float_sub_zeros; [by apply float_mul_zero_l|done].
  - by apply float_zero_add_finite.
  - destruct (float_zero_add wmag) as [->|Hz]; [by left|].
    right. split; [by apply float_add_zeros|done].
Qed.

(** The value read at a place of a sum of two real matrices. *)
Lemma binop_default_real (a b : option float) :
  same_number (default 0 (binop_entry (F:=float) (E:=float) PrimFloat.add a b))
    (default 0 a + default 0 b).
Proof.
  assert (forall v, same_number
            (default 0 (if negb (v =? 0) then Some v else None)) v) as Hv.
  { intros v. destruct (v =? 0) eqn:Hz; simpl.
    - by apply float_zeros_same.
    - apply same_number_refl. }
  destruct a as [a|], b as [b|]; try apply Hv. apply same_number_refl.
Qed.

(** The value read at a place of a sum of two complex matrices. *)
Lemma binop_default_complex (a b : option (complex float)) :
  let v := default (Cx 0 0) (binop_entry (F:=float) cadd a b) in
  let x := default (Cx 0 0) a in
  let y := default (Cx 0 0) b in
  same_number (re v) (re x + re y) /\ same_number (im v) (im x + im y).
Proof.
  assert (forall v : complex float,
            let w := default (Cx 0 0) (if cnonzero v then Some v else None) in
            same_number (re w) (re v) /\ same_number (im w) (im v)) as Hv.
  { intros v. unfold cnonzero. simpl.
    destruct (re v =? 0) eqn:Hre, (im v =? 0) eqn:Him; simpl;
      try (split; apply same_number_refl).
    split; by apply float_zeros_same. }
  destruct a as [a|], b as [b|]; try apply Hv.
  split; apply same_number_refl.
Qed.

(** An entry of the matrix of line 363 in float64: for a magnitude whose
    square is finite and a finite entry of R, the real part is
    [K + wmag²·S] and the imaginary part [wmag·R], as numbers. *)
Lemma a_entry_float (wmag : float) (k s r : option float) :
  is_finite (wmag * wmag) = true ->
  is_finite (default 0 r) = true ->
  let v := default (Cx 0 0) (a_entry wmag k s r) in
  same_number (re v) (default 0 k + wmag * wmag * default 0 s) /\
  same_number (im v) (wmag * default 0 r).
Proof.
  intros Hsq Hr.
  pose proof (float_finite_of_square _ Hsq) as Hw.
  destruct (j_times_wmag wmag Hw) as (Hre & Him & Hc).
  unfold a_entry. set (c := cmul c_j (of_real wmag)) in *.
  set (t2 := binop_entry dadd k _).
  destruct (binop_default_complex (of_real <$> t2)
              ((fun x : float => cmul (of_real x) c) <$> r)) as [Hv1 Hv2].
  assert (default (Cx 0 0) (of_real <$> t2) = Cx (default 0 t2) 0) as Hup
    by (by destruct t2).
  rewrite Hup in Hv1, Hv2. simpl in Hv1, Hv2.
  (* the real part *)
  assert (same_number (default 0 t2) (default 0 k + wmag * wmag * default 0 s))
    as HT.
  { eapply same_number_trans; [apply binop_default_real|].
    destruct s as [s|]; simpl.
    - rewrite (float_mul_comm s). apply same_number_refl.
    - eapply same_number_trans; [by apply float_add_zero_r|].
      apply same_number_sym, float_add_zero_r. by apply float_mul_zero_r. }
  assert ((re (default (Cx 0 0) ((fun x : float => cmul (of_real x) c) <$> r)) =? 0)
          = true) as HZ.
  { destruct r as [r|]; [|done]. simpl in *.
    apply float_sub_zeros; [by apply float_mul_zero_r|by apply float_mul_zero_l]. }
  split.
  - eapply same_number_trans; [exact Hv1|].
    eapply same_number_trans; [by apply float_add_zero_r|exact HT].
  - eapply same_number_trans; [exact Hv2|].
    eapply same_number_trans; [by apply float_add_zero_l|].
    destruct r as [r|]; simpl in *.
    + eapply same_number_trans.
      { apply float_add_zero_r. by apply float_mul_zero_l; [apply float_zero_is_finite|]. }
      destruct Hc as [->|[Hc Hz]]; [rewrite float_mul_comm; apply same_number_refl|].
      apply float_zeros_same; [by apply float_mul_zero_r|by apply float_mul_zero_l].
    + apply float_zeros_same; [done|]. by apply float_mul_zero_r.
Qed.
End Float64Arithmetic.

(* ===================================================================== *)
(** ** The assembled matrix in float64 *)
(* ===================================================================== *)

Section AssembledFloat.
Open Scope float_scope.

(** When every stored value is finite, every entry is. *)
Lemma mat_get_finite (m : spmatrix float) :
  Forall (fun v => is_finite v = true) (mat_data m) ->
  forall i j, is_finite (mat_get m i j) = true.
Proof.
  intros Hall i j. unfold mat_get.
  destruct (entries m !! (i, j)) as [v|] eqn:Hv; [|done]. simpl.
  rewrite Forall_forall in Hall. apply Hall.
  unfold mat_data. apply list_elem_of_fmap. exists ((i, j), v).
  split; [done|]. by apply elem_of_map_to_list.
Qed.

(** The entries of the matrix of line 363 in float64. *)
Lemma mtx_a_float (K S R : spmatrix float) (wmag : float) :
  shape S = shape K -> shape R = shape K ->
  is_finite (wmag * wmag) = true ->
  Forall (fun v => is_finite v = true) (mat_data R) ->
  exists A : spmatrix (complex float),
    mtx_a_of (RealMat K) (RealMat S) (RealMat R) wmag = Ok (CplxMat A) /\
    shape A = shape K /\
    forall i j,
      same_number (re (mat_get A i j))
        (mat_get K i j + wmag * wmag * mat_get S i j) /\
      same_number (im (mat_get A i j)) (wmag * mat_get R i j).
Proof.
  intros HS HR Hsq Hfin.
  destruct (mtx_a_of_real K S R wmag HS HR) as (A & HA & Hshape & Hent).
  exists A. split; [done|]. split; [done|].
  intros i j.
  pose proof (a_entry_float wmag (entries K !! (i, j)) (entries S !! (i, j))
                (entries R !! (i, j)) Hsq (mat_get_finite R Hfin i j)) as He.
  rewrite <- Hent in He. exact He.
Qed.

(** A number that is the same as a zero is a zero. *)
Lemma same_as_zero (x z : float) :
  same_number x z -> (z =? 0) = true -> (x =? 0) = true.
Proof.
  rewrite same_number_spec, !float_zero_spec. intros Hsame [s Hz].
  rewrite Hz in Hsame. destruct (Prim2SF x); try done. eauto.
Qed.
End AssembledFloat.




(** C4, as the code has it, in float64. At the magnitude zero (of either
    sign), when every stored value of S and of R is finite, the assembled
    matrix is the stiffness matrix as numbers: the real part of [A[i,j]] is
    the same number as [K[i,j]] and the imaginary part compares equal to
    zero, for all [i], [j]. *)
Theorem assembled_at_zero_is_stiffness
    (mtx_m mtx_k mtx_s mtx_r : loc) (oM : obj float) (K S R : spmatrix float)
    (n : nat) (wmag : float) (s : state float) :
  holds mtx_m mtx_k mtx_s mtx_r oM (RealMat K) (RealMat S) (RealMat R) s ->
  shape K = (n, n) -> shape S = (n, n) -> shape R = (n, n) ->
  PrimFloat.eqb wmag 0 = true ->
  Forall (fun v => is_finite v = true) (mat_data S) ->
  Forall (fun v => is_finite v = true) (mat_data R) ->
  exists mtx_a A s',
    assemble mtx_m mtx_k mtx_s mtx_r wmag s = (Ok (mtx_a, mtx_m), s') /\
    st_heap s' !! mtx_a = Some (CplxMat A) /\
    shape A = shape K /\
    forall i j,
      same_number (re (mat_get A i j)) (mat_get K i j) /\
      PrimFloat.eqb (im (mat_get A i j)) 0 = true.
Proof.
  intros Hs HK HS HR Hz HfinS HfinR.
  assert (PrimFloat.eqb (wmag * wmag) 0 = true) as Hsq
    by (by apply float_mul_zero_r; [apply float_zero_is_finite|]).
  destruct (mtx_a_float K S R wmag) as (A & HA & Hshape & Hent);
    [congruence..|by apply float_zero_is_finite|done|].
  pose proof (assemble_run mtx_m mtx_k mtx_s mtx_r _ _ _ _ wmag s Hs) as Hrun.
  rewrite HA in Hrun. destruct Hrun as (a & s' & Hrun & Hg & Ha & _).
  exists a, A, s'. repeat split; try done.
  - eapply same_number_trans; [apply Hent|].
    apply float_add_zero_r. apply float_mul_zero_l; [by apply mat_get_finite|done].
  - eapply same_as_zero; [apply Hent|].
    apply float_mul_zero_l; [by apply mat_get_finite|done].
Qed.

Lemma assembled_at_zero_is_stiffness_witness :
  exists mtx_a A s',
    assemble 1 2 3 4 0%float float_store2 = (Ok (mtx_a, 1%positive), s') /\
    st_heap s' !! mtx_a = Some (CplxMat A) /\
    shape A = shape float_identity2 /\
    forall i j,
      same_number (re (mat_get A i j)) (mat_get float_identity2 i j) /\
      PrimFloat.eqb (im (mat_get A i j)) 0 = true.
Proof.
  refine (assembled_at_zero_is_stiffness 1 2 3 4 (RealMat float_identity2)
            float_identity2 float_identity2 float_rotation2 2 0%float
            float_store2 _ _ _ _ _ _ _).
  - repeat split; reflexivity.
  - reflexivity.
  - reflexivity.
  - reflexivity.
  - reflexivity.
  - vm_compute. repeat constructor.
  - vm_compute. repeat constructor.
Defined.

(** C4, where it fails. With the stored value [inf] in S, the entry of A at
    the magnitude zero has the real part NaN, where K has 4: the scaled
    block is [inf * 0]. *)
Lemma stiffness_at_zero_counterexample :
  let s := store_of (block1 2) (block1 4) (block1 infinity) empty1 in
  exists mtx_a A s',
    assemble 1 2 3 4 0%float s = (Ok (mtx_a, 1%positive), s') /\
    st_heap s' !! mtx_a = Some (CplxMat A) /\
    PrimFloat.is_nan (re (mat_get A 0 0)) = true /\
    mat_get (block1 4) 0 0 = 4%float.
Proof.
  simpl. eexists _, _, _.
  split; [vm_compute; reflexivity|].
  split; [vm_compute; reflexivity|].
  split; vm_compute; reflexivity.
Qed.

(* ===================================================================== *)
(** ** The frequencies of a step *)
(* ===================================================================== *)

(** C2, what the code does not do: there is no tolerance below zero within
    which the step logs the frequency zero for an eigenvalue that the solver
    returned. The step runs on the 1 x 1 test blocks at the magnitude 10,
    with a solver that returns the eigenvalue [lam]. *)
Lemma eigenvalue_clamp_counterexample :
  ~ exists tol : float,
      PrimFloat.ltb 0%float tol = true /\
      forall lam : float,
        PrimFloat.leb (- tol)%float lam = true ->
        PrimFloat.ltb lam 0%float = true ->
        log_records
          (st_trace (step (fun _ _ _ _ => Ok ([lam], [])) (fun v => v)
                       (Options 1 true false) 1 2 3 4 [1%float] 0%float 0%float
                       0 10%float float_store).2)
        = [([lam; 0%float], [10%float; 10%float])].
Proof.
  intros (tol & Htol & Hclamp).
  assert (PrimFloat.ltb (- tol)%float 0%float = true) as Hneg.
  { rewrite FloatAxioms.ltb_spec in *. rewrite opp_spec.
    change (Prim2SF 0%float) with (S754_zero false) in *.
    destruct (Prim2SF tol) as [s|s| |s m e]; [done| |done|]; by destruct s. }
  assert (PrimFloat.leb (- tol)%float (- tol)%float = true) as Hle.
  { rewrite FloatAxioms.leb_spec.
    destruct (float_ltb_zero _ Hneg) as [->|(m & e & ->)]; [done|].
    unfold SFleb, SFcompare.
    by rewrite Z.compare_refl, Pos.compare_cont_refl. }
  specialize (Hclamp _ Hle Hneg).
  destruct (mtx_a_of_real (block1 4) (block1 1) empty1 10%float eq_refl eq_refl)
    as (A & HA & _).
  destruct (step_log_record (fun _ _ _ _ => Ok ([(- tol)%float], []))
              (fun v => v) (Options 1 true false) 1 2 3 4 [1%float]
              0%float 0%float (RealMat (block1 2)) (block1 4) (block1 1) empty1
              1 0 10%float (CplxMat A) [(- tol)%float] [] float_store)
    as (new & Htr & Hlog); try done.
  rewrite Htr in Hclamp. simpl in Hclamp. rewrite Hlog in Hclamp.
  apply (f_equal (fun l => default 0%float
                             (match l with
                              | (out, _) :: _ => out !! 1
                              | [] => None
                              end))) in Hclamp.
  simpl in Hclamp. rewrite (sqrt_negative _ Hneg) in Hclamp.
  by apply nan_not_zero.
Qed.

(** C2, as the code has it. In a step on square blocks in which the solver
    returns, [log] is called once; its values hold every eigenvalue as the
    solver returned it and, after the eigenvalues, its square root: nothing
    is clamped, and an eigenvalue below zero, however small, is logged with
    the frequency NaN. *)
Theorem negative_eigenvalue_gives_nan
    eig_solver make_full_vec opts (mtx_m mtx_k mtx_s mtx_r : loc)
    (wdir : list float) cp cs (oM : obj float) (K S R : spmatrix float)
    (n iv : nat) (wmag : float) (A : obj float) eigs svecs (s : state float)
    (i : nat) (lam : float) :
  holds mtx_m mtx_k mtx_s mtx_r oM (RealMat K) (RealMat S) (RealMat R) s ->
  shape K = (n, n) -> shape S = (n, n) -> shape R = (n, n) ->
  mtx_a_of (RealMat K) (RealMat S) (RealMat R) wmag = Ok A ->
  eig_solver A oM (n_eigs opts) (negb (eigs_only opts)) = Ok (eigs, svecs) ->
  eigs !! i = Some lam ->
  exists new out,
    st_trace (step eig_solver make_full_vec opts mtx_m mtx_k mtx_s mtx_r
                wdir cp cs iv wmag s).2 = st_trace s ++ new /\
    log_records new = [(out, [wmag; wmag])] /\
    out !! i = Some lam /\
    out !! (length eigs + i) = Some (PrimFloat.sqrt lam) /\
    (PrimFloat.ltb lam 0%float = true -> out !! (length eigs + i) = Some nan).
Proof.
  intros Hs HK HS HR HA Hsolve Hi.
  destruct (step_log_record eig_solver make_full_vec opts mtx_m mtx_k mtx_s
              mtx_r wdir cp cs oM K S R n iv wmag A eigs svecs s)
    as (new & Htr & Hlog); try done.
  exists new, (record_out opts cp cs wmag eigs).
  split; [done|]. split; [done|].
  assert (record_out opts cp cs wmag eigs !! (length eigs + i)
          = Some (PrimFloat.sqrt lam)) as Hom.
  { unfold record_out, np_sqrt.
    rewrite lookup_app_r by lia.
    replace (length eigs + i - length eigs) with i by lia.
    rewrite lookup_app_l.
    - by rewrite list_lookup_fmap, Hi.
    - rewrite length_fmap. by eapply lookup_lt_Some. }
  split; [|split; [done|]].
  - unfold record_out. rewrite lookup_app_l; [done|]. by eapply lookup_lt_Some.
  - intros Hneg. by rewrite Hom, (sqrt_negative _ Hneg).
Qed.

(** The solver returns the eigenvalues 4, -2^-40 and 9: the second one is
    logged as it is, with the frequency NaN. *)
Lemma negative_eigenvalue_gives_nan_witness :
  let solver := fun (_ _ : obj float) (_ : Z) (_ : bool) =>
                  Ok ([4; -0x1p-40; 9]%float, @nil (list (complex float))) in
  let opts := Options 3 true false in
  exists new out,
    st_trace (step solver (fun v => v) opts 1 2 3 4 [1%float] 0%float 0%float
                0 10%float float_store).2 = st_trace float_store ++ new /\
    log_records new = [(out, [10%float; 10%float])] /\
    out !! 1 = Some (-0x1p-40)%float /\
    out !! (length [4; -0x1p-40; 9]%float + 1)
    = Some (PrimFloat.sqrt (-0x1p-40)) /\
    (PrimFloat.ltb (-0x1p-40) 0%float = true ->
     out !! (length [4; -0x1p-40; 9]%float + 1) = Some nan).
Proof.
  refine (negative_eigenvalue_gives_nan
            (fun _ _ _ _ => Ok ([4; -0x1p-40; 9]%float, []))
            (fun v => v) (Options 3 true false) 1 2 3 4 [1%float]
            0%float 0%float (RealMat (block1 2)) (block1 4) (block1 1) empty1
            1 0 10%float
            (CplxMat (SpMatrix (1, 1)
                        (list_to_map [((0, 0), Cx 104%float 0%float)])))
            [4; -0x1p-40; 9]%float [] float_store 1 (-0x1p-40)%float
            _ _ _ _ _ _ _).
  - repeat split; reflexivity.
  - reflexivity.
  - reflexivity.
  - reflexivity.
  - vm_compute. reflexivity.
  - reflexivity.
  - reflexivity.
Defined.

(** The negative float closest to zero is not clamped either: the step logs
    it with the frequency NaN. *)
Example smallest_negative_eigenvalue :
  log_records
    (st_trace (step (fun _ _ _ _ => Ok ([(-0x1p-1074)%float], []))
                 (fun v => v) (Options 1 true false) 1 2 3 4 [1%float]
                 0%float 0%float 0 10%float float_store).2)
  = [([(-0x1p-1074)%float; nan], [10%float; 10%float])].
Proof. vm_compute. reflexivity. Qed.

(** C10. The all-zero wave direction: its norm is [0.0], and every
    component of the normalised direction is [0.0 / 0.0], NaN; nothing is
    raised. *)
Theorem zero_wave_direction_is_nan (wave_dir : list float) (dim : nat) :
  Forall (fun x => PrimFloat.eqb x 0%float = true) (take dim wave_dir) ->
  np_norm (take dim wave_dir) = 0%float /\
  normalize_wave_dir wave_dir dim
  = replicate (length (take dim wave_dir)) nan.
Proof.
  intros Hzero.
  assert (np_norm (take dim wave_dir) = 0%float) as Hnorm.
  { unfold np_norm. by rewrite sum_squares_zero. }
  split; [done|].
  unfold normalize_wave_dir. rewrite Hnorm. by apply zeros_over_zero.
Qed.

Lemma zero_wave_direction_is_nan_witness :
  np_norm (take 3 [0; 0; 0]%float) = 0%float /\
  normalize_wave_dir [0; 0; 0]%float 3
  = replicate (length (take 3 [0; 0; 0]%float)) nan.
Proof.
  apply (zero_wave_direction_is_nan [0; 0; 0]%float 3).
  repeat constructor.
Defined.

(** The default direction, [--wave-dir 1.0,0.0,0.0], in two dimensions. *)
Example default_wave_direction :
  normalize_wave_dir [1; 0; 0]%float 2 = [1; 0]%float.
Proof. vm_compute. reflexivity. Qed.


(* ===================================================================== *)
(** ** The symmetry checks of the real blocks and the whole of [main] *)
(* ===================================================================== *)

Section MainFacts.
Context {F : Type} `{Scalar F}.
Variable eig_solver :
  obj F -> obj F -> Z -> bool -> result (list F * list (list (complex F))).
Variable make_full_vec : list (complex F) -> list (complex F).
Variable opts : options.
Variables mtx_m mtx_k mtx_s mtx_r : loc.
Variable wdir : list F.
Variables cp cs : F.
Variables oM K S R : obj F.

#[local] Abbreviation holds' := (holds mtx_m mtx_k mtx_s mtx_r oM K S R).
#[local] Abbreviation checks_out := (checks_outcome oM K S R).
#[local] Abbreviation main_out :=
  (main_outcome eig_solver make_full_vec opts wdir cp cs oM K S R).

Lemma transpose_check_run l o (s : state F) :
  st_heap s !! l = Some o ->
  exists s', (t <~ py_T l ;; _max_diff_csr l t) s
             = (max_diff_of o (obj_T o), s') /\ heap_grows s s'.
Proof.
  intros Hl. unfold py_T.
  destruct (py_unop_run obj_T _ _ _ Hl) as (t & s1 & Hrun & Hg & Ht & _).
  run_ok Hrun.
  destruct (max_diff_csr_run l t _ _ s1 (heap_grows_lookup _ _ _ _ Hg Hl) Ht)
    as (s2 & -> & Hg2).
  exists s2. split; [done|]. by eapply heap_grows_trans.
Qed.

Lemma negated_transpose_check_run l o (s : state F) :
  st_heap s !! l = Some o ->
  exists s', (t <~ py_T l ;; n <~ py_neg t ;; _max_diff_csr l n) s
             = (max_diff_of o (obj_neg (obj_T o)), s') /\ heap_grows s s'.
Proof.
  intros Hl. unfold py_T, py_neg.
  destruct (py_unop_run obj_T _ _ _ Hl) as (t & s1 & Hrun & Hg & Ht & _).
  run_ok Hrun.
  destruct (py_unop_run obj_neg _ _ _ Ht) as (n & s2 & Hrun2 & Hg2 & Hn & _).
  run_ok Hrun2.
  pose proof (heap_grows_trans _ _ _ Hg Hg2) as Hg12.
  destruct (max_diff_csr_run l n _ _ s2 (heap_grows_lookup _ _ _ _ Hg12 Hl) Hn)
    as (s3 & -> & Hg3).
  exists s3. split; [done|]. by eapply heap_grows_trans.
Qed.

(** One check and its output, then the rest. *)
Lemma check_then {A} (c : M F F) (r : result F) (what : string)
    (k : M F A) (s s1 : state F) :
  c s = (r, s1) -> heap_grows s s1 ->
  (d <~ c ;; emit (EvOutput what [d]) ;;; k) s
  = match r with
    | Ok d => k (State (st_heap s1) (st_trace s ++ [EvOutput what [d]]))
    | Raise e => (Raise e, s1)
    end.
Proof.
  intros Hc [_ Htr]. destruct r as [d|e].
  - run_ok Hc. run_ok (emit_run (EvOutput what [d]) s1). by rewrite Htr.
  - by apply bind_Raise.
Qed.

Lemma symmetry_checks_run (s : state F) :
  holds' s ->
  exists s',
    symmetry_checks mtx_m mtx_k mtx_s mtx_r s = (checks_out.2, s') /\
    st_heap s ⊆ st_heap s' /\
    st_trace s' = st_trace s ++ checks_out.1.
Proof.
  intros (Hm & Hk & Hs & Hr). unfold symmetry_checks, checks_outcome.
  run_ok (emit_run (EvOutput "symmetry checks of real blocks:" []) s).
  set (s0 := State _ _).
  destruct (transpose_check_run mtx_m oM s0 Hm) as (s1 & Hc1 & Hg1).
  rewrite (check_then _ _ _ _ _ _ Hc1 Hg1).
  destruct (max_diff_of oM (obj_T oM)) as [dm|e].
  2:{ exists s1. destruct Hg1 as [Hsub ->]. done. }
  set (s1' := State _ _).
  assert (st_heap s ⊆ st_heap s1') as Hsub1 by apply Hg1.
  destruct (transpose_check_run mtx_k K s1' (lookup_weaken _ _ _ _ Hk Hsub1))
    as (s2 & Hc2 & Hg2).
  rewrite (check_then _ _ _ _ _ _ Hc2 Hg2).
  destruct (max_diff_of K (obj_T K)) as [dk|e].
  2:{ exists s2. destruct Hg2 as [Hsub ->]. simpl.
      split; [done|]. split; [by etrans|]. by rewrite <- app_assoc. }
  set (s2' := State _ _).
  assert (st_heap s ⊆ st_heap s2') as Hsub2 by (etrans; [exact Hsub1|apply Hg2]).
  destruct (transpose_check_run mtx_s S s2' (lookup_weaken _ _ _ _ Hs Hsub2))
    as (s3 & Hc3 & Hg3).
  rewrite (check_then _ _ _ _ _ _ Hc3 Hg3).
  destruct (max_diff_of S (obj_T S)) as [ds|e].
  2:{ exists s3. destruct Hg3 as [Hsub ->]. simpl.
      split; [done|]. split; [by etrans|]. by rewrite <- !app_assoc. }
  set (s3' := State _ _).
  assert (st_heap s ⊆ st_heap s3') as Hsub3 by (etrans; [exact Hsub2|apply Hg3]).
  destruct (negated_transpose_check_run mtx_r R s3'
              (lookup_weaken _ _ _ _ Hr Hsub3)) as (s4 & Hc4 & Hg4).
  destruct Hg4 as [Hsub4 Htr4].
  destruct (max_diff_of R (obj_neg (obj_T R))) as [dr|e].
  - run_ok Hc4. rewrite emit_run. eexists. split; [done|]. simpl.
    split; [by etrans|]. rewrite Htr4. simpl. by rewrite <- !app_assoc.
  - exists s4. rewrite (bind_Raise _ _ _ _ _ Hc4). simpl.
    split; [done|]. split; [by etrans|]. rewrite Htr4. simpl.
    by rewrite <- !app_assoc.
Qed.

Lemma main_run wmag_stepper (s : state F) :
  holds' s ->
  exists s',
    main eig_solver make_full_vec opts mtx_m mtx_k mtx_s mtx_r wdir cp cs
      wmag_stepper s = ((main_out wmag_stepper).2, s') /\
    st_heap s ⊆ st_heap s' /\
    st_trace s' = st_trace s ++ (main_out wmag_stepper).1.
Proof.
  intros Hs. unfold main, main_outcome.
  destruct (symmetry_checks_run s Hs) as (s1 & Hrun & Hsub & Htr).
  destruct (checks_out.2) as [[]|e].
  - run_ok Hrun.
    destruct (sweep_run eig_solver make_full_vec opts mtx_m mtx_k mtx_s mtx_r
                wdir cp cs _ _ _ _ wmag_stepper s1 (holds_grows _ _ _ _ _ _ _ _ _ _ Hs Hsub))
      as (s2 & Hrun2 & Hsub2 & Htr2).
    exists s2. split; [done|]. split; [by etrans|].
    simpl. by rewrite Htr2, Htr, <- app_assoc.
  - exists s1. by rewrite (bind_Raise _ _ _ _ _ Hrun).
Qed.
End MainFacts.

(* ===================================================================== *)
(** ** The requested number of eigenvalues *)
(* ===================================================================== *)

Section RequestedCount.
Context {F : Type} `{Scalar F}.
Variable eig_solver :
  obj F -> obj F -> Z -> bool -> result (list F * list (list (complex F))).
Variable make_full_vec : list (complex F) -> list (complex F).
Variable opts : options.
Variable wdir : list F.
Variables cp cs : F.
Variables M K S R : spmatrix F.
Variable n : nat.
Hypothesis shape_M : shape M = (n, n).
Hypothesis shape_K : shape K = (n, n).
Hypothesis shape_S : shape S = (n, n).
Hypothesis shape_R : shape R = (n, n).


End RequestedCount.




(* ===================================================================== *)
(** ** Shapes that do not fit *)
(* ===================================================================== *)

Section ShapeErrors.
Context {F : Type} `{Scalar F}.

Lemma obj_binop_mismatch rop cop (o1 o2 : obj F) :
  (forall a b, shape a <> shape b -> rop a b = Raise ValueError) ->
  (forall a b, shape a <> shape b -> cop a b = Raise ValueError) ->
  obj_shape o1 <> obj_shape o2 ->
  obj_binop rop cop o1 o2 = Raise ValueError.
Proof.
  intros Hr Hc Hs. unfold obj_binop.
  destruct o1 as [a|a], o2 as [b|b]; simpl in *.
  - by rewrite Hr.
  - by rewrite Hc.
  - by rewrite Hc.
  - by rewrite Hc.
Qed.

Lemma sp_binop_mismatch {E} `{Dtype F E} (op : E -> E -> E) (a b : spmatrix E) :
  shape a <> shape b -> sp_binop op a b = Raise ValueError.
Proof. intros Hs. unfold sp_binop. by rewrite decide_False. Qed.

Lemma obj_sub_mismatch (o1 o2 : obj F) :
  obj_shape o1 <> obj_shape o2 -> obj_sub o1 o2 = Raise ValueError.
Proof.
  apply obj_binop_mismatch; intros a b; apply sp_binop_mismatch.
Qed.

Lemma obj_add_mismatch (o1 o2 : obj F) :
  obj_shape o1 <> obj_shape o2 -> obj_add o1 o2 = Raise ValueError.
Proof.
  apply obj_binop_mismatch; intros a b; apply sp_binop_mismatch.
Qed.

Lemma obj_shape_T (o : obj F) : obj_shape (obj_T o) = prod_swap (obj_shape o).
Proof. by destruct o. Qed.

Lemma obj_add_shape (o1 o2 o : obj F) :
  obj_add o1 o2 = Ok o -> obj_shape o = obj_shape o1.
Proof.
  unfold obj_add, obj_binop, sp_add.
  destruct o1 as [a|a], o2 as [b|b]; simpl;
    (destruct (sp_binop _ _ _) as [m|e] eqn:Hm; [|done]);
    intros [= <-]; simpl; by destruct (sp_binop_shape _ _ _ _ Hm) as [_ ->].
Qed.
End ShapeErrors.

(** X1. Two matrix objects of different shapes: [_max_diff_csr] raises
    [ValueError], and the state is as before the call: nothing is allocated
    and nothing is printed. *)
Theorem max_diff_csr_inconsistent_shapes {F : Type} `{Scalar F}
    (mtx1 mtx2 : loc) (o1 o2 : obj F) (s : state F) :
  st_heap s !! mtx1 = Some o1 -> st_heap s !! mtx2 = Some o2 ->
  obj_shape o1 <> obj_shape o2 ->
  _max_diff_csr mtx1 mtx2 s = (Raise ValueError, s).
Proof.
  intros Hl1 Hl2 Hshape. unfold _max_diff_csr, py_sub.
  apply bind_Raise. eapply py_binop_Raise; eauto.
  by apply obj_sub_mismatch.
Qed.

Lemma max_diff_csr_inconsistent_shapes_witness :
  _max_diff_csr 1 2
    (State (list_to_map [(1%positive, RealMat (SpMatrix (1, 2) ∅));
                         (2%positive, RealMat (SpMatrix (2, 1) ∅))]) [])
  = (Raise ValueError,
     State (list_to_map [(1%positive, RealMat (SpMatrix (1, 2) (∅ : gmap _ float)));
                         (2%positive, RealMat (SpMatrix (2, 1) ∅))]) []).
Proof.
  refine (max_diff_csr_inconsistent_shapes 1 2
            (RealMat (SpMatrix (1, 2) ∅)) (RealMat (SpMatrix (2, 1) ∅)) _ _ _ _).
  - reflexivity.
  - reflexivity.
  - simpl. congruence.
Defined.

(** X2. A mass matrix that is not square: [main] raises [ValueError] in its
    first symmetry check, after the heading of the checks only; no check is
    printed, no step is run and the eigensolver is never called. *)
Theorem main_rejects_a_non_square_mass_matrix {F : Type} `{Scalar F}
    eig_solver make_full_vec opts (mtx_m mtx_k mtx_s mtx_r : loc)
    (wdir : list F) cp cs (oM K S R : obj F) (rows cols : nat)
    (wmag_stepper : list F) (s : state F) :
  holds mtx_m mtx_k mtx_s mtx_r oM K S R s ->
  obj_shape oM = (rows, cols) -> rows <> cols ->
  exists s',
    main eig_solver make_full_vec opts mtx_m mtx_k mtx_s mtx_r wdir cp cs
      wmag_stepper s = (Raise ValueError, s') /\
    st_trace s' = st_trace s ++ [EvOutput "symmetry checks of real blocks:" []] /\
    st_heap s ⊆ st_heap s'.
Proof.
  intros Hs Hshape Hne.
  destruct (main_run eig_solver make_full_vec opts mtx_m mtx_k mtx_s mtx_r
              wdir cp cs oM K S R wmag_stepper s Hs) as (s' & Hrun & Hsub & Htr).
  assert (max_diff_of oM (obj_T oM) = Raise ValueError) as Hm.
  { unfold max_diff_of. rewrite obj_sub_mismatch; [done|].
    rewrite obj_shape_T, Hshape. simpl. congruence. }
  unfold main_outcome, checks_outcome in *. rewrite Hm in *. simpl in *.
  by exists s'.
Qed.

Lemma main_rejects_a_non_square_mass_matrix_witness :
  exists s',
    main (solver_1x1 None) (fun v => v) (Options 1 true false) 1 2 3 4
      [1%float] 0%float 0%float [10%float]
      (store_of (SpMatrix (1, 2) ∅) (block1 4) (block1 1) empty1)
    = (Raise ValueError, s') /\
    st_trace s' = [] ++ [EvOutput "symmetry checks of real blocks:" []] /\
    st_heap (store_of (SpMatrix (1, 2) ∅) (block1 4) (block1 1) empty1)
      ⊆ st_heap s'.
Proof.
  refine (main_rejects_a_non_square_mass_matrix (solver_1x1 None) (fun v => v)
            (Options 1 true false) 1 2 3 4 [1%float] 0%float 0%float
            (RealMat (SpMatrix (1, 2) ∅)) (RealMat (block1 4))
            (RealMat (block1 1)) (RealMat empty1) 1 2 [10%float]
            (store_of (SpMatrix (1, 2) ∅) (block1 4) (block1 1) empty1) _ _ _).
  - repeat split; reflexivity.
  - reflexivity.
  - lia.
Defined.

(** X3. Blocks whose shapes differ: when S or R has not the shape of K, the
    step raises [ValueError] in the assembly of line 363, after printing its
    wave vector only; the eigensolver is not called and nothing is logged. *)
Theorem step_rejects_blocks_of_different_shapes {F : Type} `{Scalar F}
    eig_solver make_full_vec opts (mtx_m mtx_k mtx_s mtx_r : loc)
    (wdir : list F) cp cs (oM : obj F) (K S R : spmatrix F)
    (iv : nat) (wmag : F) (s : state F) :
  holds mtx_m mtx_k mtx_s mtx_r oM (RealMat K) (RealMat S) (RealMat R) s ->
  shape S <> shape K \/ shape R <> shape K ->
  exists s',
    step eig_solver make_full_vec opts mtx_m mtx_k mtx_s mtx_r wdir cp cs
      iv wmag s = (Raise ValueError, s') /\
    st_trace s' = st_trace s ++ [EvOutputStep iv (smul wmag <$> wdir)].
Proof.
  intros Hs Hshape.
  destruct (step_run eig_solver make_full_vec opts mtx_m mtx_k mtx_s mtx_r
              wdir cp cs _ _ _ _ iv wmag s Hs) as (s' & Hrun & _ & Htr).
  assert (mtx_a_of (RealMat K) (RealMat S) (RealMat R) wmag = Raise ValueError)
    as Ha.
  { unfold mtx_a_of.
    destruct (decide (shape S = shape K)) as [HS|HS].
    - destruct Hshape as [?|HR]; [done|].
      destruct (obj_add _ _) as [t2|e] eqn:Ht2.
      + apply obj_add_mismatch.
        rewrite (obj_add_shape _ _ _ Ht2). simpl. congruence.
      + unfold obj_add, obj_binop, sp_add in Ht2. simpl in Ht2.
        rewrite sp_binop_Ok in Ht2 by (simpl; congruence). done.
    - rewrite obj_add_mismatch; [done|]. simpl. congruence. }
  unfold step_outcome in *. rewrite Ha in *. simpl in *.
  by exists s'.
Qed.

Lemma step_rejects_blocks_of_different_shapes_witness :
  exists s',
    step (solver_1x1 None) (fun v => v) (Options 1 true false) 1 2 3 4
      [1%float] 0%float 0%float 0 10%float
      (store_of (block1 2) (block1 4) (SpMatrix (2, 2) ∅) empty1)
    = (Raise ValueError, s') /\
    st_trace s' = [] ++ [EvOutputStep 0 (smul 10%float <$> [1%float])].
Proof.
  refine (step_rejects_blocks_of_different_shapes (solver_1x1 None) (fun v => v)
            (Options 1 true false) 1 2 3 4 [1%float] 0%float 0%float
            (RealMat (block1 2)) (block1 4) (SpMatrix (2, 2) ∅) empty1
            0 10%float
            (store_of (block1 2) (block1 4) (SpMatrix (2, 2) ∅) empty1) _ _).
  - repeat split; reflexivity.
  - left. simpl. congruence.
Defined.

(* ===================================================================== *)
(** ** Steps do not depend on one another *)
(* ===================================================================== *)

(** X4. Nothing is carried from one step to the next: in any two states in
    which the four names refer to the same K, M, S, R, the step of a
    magnitude has the same result and adds the same events to the trace,
    whatever else the store holds and whatever was traced before. *)
Theorem step_does_not_depend_on_earlier_steps {F : Type} `{Scalar F}
    eig_solver make_full_vec opts (mtx_m mtx_k mtx_s mtx_r : loc)
    (wdir : list F) cp cs (oM K S R : obj F) (iv : nat) (wmag : F)
    (s1 s2 : state F) :
  holds mtx_m mtx_k mtx_s mtx_r oM K S R s1 ->
  holds mtx_m mtx_k mtx_s mtx_r oM K S R s2 ->
  let r1 := step eig_solver make_full_vec opts mtx_m mtx_k mtx_s mtx_r
              wdir cp cs iv wmag s1 in
  let r2 := step eig_solver make_full_vec opts mtx_m mtx_k mtx_s mtx_r
              wdir cp cs iv wmag s2 in
  r1.1 = r2.1 /\
  exists new, st_trace r1.2 = st_trace s1 ++ new /\
              st_trace r2.2 = st_trace s2 ++ new.
Proof.
  intros H1 H2.
  destruct (step_run eig_solver make_full_vec opts mtx_m mtx_k mtx_s mtx_r
              wdir cp cs _ _ _ _ iv wmag s1 H1) as (s1' & Hrun1 & _ & Htr1).
  destruct (step_run eig_solver make_full_vec opts mtx_m mtx_k mtx_s mtx_r
              wdir cp cs _ _ _ _ iv wmag s2 H2) as (s2' & Hrun2 & _ & Htr2).
  simpl. rewrite Hrun1, Hrun2. simpl. split; [done|]. eauto.
Qed.

Lemma step_does_not_depend_on_earlier_steps_witness :
  let s1 := float_store in
  let s2 := (step (solver_1x1 None) (fun v => v) (Options 1 false false)
               1 2 3 4 [1%float] 0%float 0%float 0 10%float float_store).2 in
  let r1 := step (solver_1x1 None) (fun v => v) (Options 1 false false)
              1 2 3 4 [1%float] 0%float 0%float 1 20%float s1 in
  let r2 := step (solver_1x1 None) (fun v => v) (Options 1 false false)
              1 2 3 4 [1%float] 0%float 0%float 1 20%float s2 in
  r1.1 = r2.1 /\
  exists new, st_trace r1.2 = st_trace s1 ++ new /\
              st_trace r2.2 = st_trace s2 ++ new.
Proof.
  refine (step_does_not_depend_on_earlier_steps (solver_1x1 None) (fun v => v)
            (Options 1 false false) 1 2 3 4 [1%float] 0%float 0%float
            (RealMat (block1 2)) (RealMat (block1 4)) (RealMat (block1 1))
            (RealMat empty1) 1 20%float float_store _ _ _).
  - repeat split; reflexivity.
  - repeat split; vm_compute; reflexivity.
Defined.

(* ===================================================================== *)
(** ** Closing the log *)
(* ===================================================================== *)


(** X5. The log is closed exactly when every step returned: a sweep that
    returns has called [log(save_figure=...)] and [log(finished=True)] once
    each, as its last two events; a sweep that raises has called neither. *)
Theorem log_is_closed_only_when_the_sweep_returns {F : Type} `{Scalar F}
    eig_solver make_full_vec opts (mtx_m mtx_k mtx_s mtx_r : loc)
    (wdir : list F) cp cs (oM K S R : obj F) (wmag_stepper : list F)
    (s : state F) :
  holds mtx_m mtx_k mtx_s mtx_r oM K S R s ->
  let r := sweep eig_solver make_full_vec opts mtx_m mtx_k mtx_s mtx_r
             wdir cp cs wmag_stepper s in
  exists new,
    st_trace r.2 = st_trace s ++ new /\
    (r.1 = Ok tt ->
     exists body, new = body ++ [EvLogSaveFigure; EvLogFinished] /\
       Forall (fun e => closes_log e = false) body) /\
    (forall e, r.1 = Raise e -> Forall (fun e => closes_log e = false) new).
Proof.
  intros Hs.
  destruct (sweep_run eig_solver make_full_vec opts mtx_m mtx_k mtx_s mtx_r
              wdir cp cs _ _ _ _ wmag_stepper s Hs) as (s' & Hrun & _ & Htr).
  simpl. rewrite Hrun. simpl. eexists. split; [exact Htr|].
  unfold sweep_outcome.
  pose proof (loop_outcome_open eig_solver make_full_vec opts wdir cp cs
                oM K S R (enumerate wmag_stepper)) as Hopen.
  destruct (loop_outcome _ _ _ _ _ _ _ _ _ _ _) as [ev [[]|e]]; simpl in *.
  - split; [|done]. intros _. by exists ev.
  - split; [done|]. by intros e' _.
Qed.

Lemma log_is_closed_only_when_the_sweep_returns_witness :
  let r := sweep (solver_1x1 (Some 1000%float)) (fun v => v)
             (Options 1 false false) 1 2 3 4 [1%float] 0%float 0%float
             [10; 50; 90]%float float_store in
  exists new,
    st_trace r.2 = st_trace float_store ++ new /\
    (r.1 = Ok tt ->
     exists body, new = body ++ [EvLogSaveFigure; EvLogFinished] /\
       Forall (fun e => closes_log e = false) body) /\
    (forall e, r.1 = Raise e -> Forall (fun e => closes_log e = false) new).
Proof.
  refine (log_is_closed_only_when_the_sweep_returns
            (solver_1x1 (Some 1000%float)) (fun v => v) (Options 1 false false)
            1 2 3 4 [1%float] 0%float 0%float
            (RealMat (block1 2)) (RealMat (block1 4)) (RealMat (block1 1))
            (RealMat empty1) [10; 50; 90]%float float_store _).
  repeat split; reflexivity.
Defined.

(* ===================================================================== *)
(** ** The full eigenvectors *)
(* ===================================================================== *)

(** X6. Lines 386-401, for [k] eigenvalues and the columns [svecs]:
    [make_full_vec] is called once on every column, in order; then
    [set_full] is called on the full vectors of the first [k] columns, and
    [save_state] once with the step number. With fewer columns than
    eigenvalues [set_full] is called on every full vector, [IndexError] is
    raised and [save_state] is not called. The store is not touched. *)
Theorem full_eigenvectors_are_expanded_then_saved {F : Type} `{Scalar F}
    (make_full_vec : list (complex F) -> list (complex F)) (iv : nat)
    (eigs : list F) (svecs : list (list (complex F))) (s : state F) :
  save_eigenvectors make_full_vec iv eigs svecs s
  = (if decide (length eigs <= length svecs) then Ok tt else Raise IndexError,
     State (st_heap s)
       (st_trace s
          ++ (EvMakeFullVec <$> svecs)
          ++ (EvSetFull <$> take (length eigs) (make_full_vec <$> svecs))
          ++ (if decide (length eigs <= length svecs)
              then [EvSaveState iv (length eigs)] else []))).
Proof.
  rewrite save_eigenvectors_run. unfold save_outcome.
  rewrite length_fmap. case_decide; simpl; [done|].
  rewrite firstn_all2 by (rewrite length_fmap; lia).
  by rewrite app_nil_r.
Qed.

(* ===================================================================== *)
(** ** More on the assembled matrix and the checks, in exact arithmetic *)
(* ===================================================================== *)

Section ExactChecks.
Context {F : Type} `{ScalarLaws F}.

Add Ring scalar_ring'' : s_ring.

Lemma a_value_opp (wmag k s r : F) :
  a_value (sopp wmag) k s r = conj (a_value wmag k s r).
Proof. unfold a_value, conj. simpl. f_equal; ring. Qed.

(** Two real matrices of one shape with the same entries differ by
    nothing. *)
Lemma max_diff_of_equal (a b : spmatrix F) :
  shape a = shape b ->
  (forall i j, mat_get a i j = mat_get b i j) ->
  max_diff_of (RealMat a) (RealMat b) = Ok szero.
Proof.
  intros Hshape Heq. unfold max_diff_of, obj_sub, obj_binop, sp_sub.
  rewrite sp_binop_Ok by done. simpl.
  assert (merge (binop_entry ssub) (entries a) (entries b) = ∅) as Hempty.
  { apply map_eq. intros [i j].
    rewrite lookup_merge, diag_None_binop_entry, lookup_empty.
    rewrite (binop_entry_canon real_nonzero) by (simpl; ring).
    specialize (Heq i j). unfold mat_get in Heq. simpl in *. rewrite Heq.
    unfold canon.
    assert (ssub (default szero (entries b !! (i, j)))
              (default szero (entries b !! (i, j))) = szero) as -> by ring.
    simpl. by rewrite (proj2 (s_nonzero szero) eq_refl). }
  unfold mat_data. simpl. by rewrite Hempty, map_to_list_empty.
Qed.

Lemma mat_get_T (m : spmatrix F) i j : mat_get (sp_T m) i j = mat_get m j i.
Proof. unfold mat_get. by rewrite sp_T_lookup. Qed.

Lemma mat_get_neg_T (m : spmatrix F) i j :
  mat_get (sp_neg (sp_T m)) i j = sopp (mat_get m j i).
Proof.
  unfold mat_get. simpl. rewrite lookup_fmap.
  change (i, j) with (prod_swap (j, i)). rewrite lookup_kmap by apply _.
  destruct (entries m !! (j, i)); simpl; [done|ring].
Qed.
End ExactChecks.

(** X7. Negating the magnitude conjugates the matrix: the matrix assembled
    at [-wmag] is, stored entry by stored entry, the complex conjugate of the
    matrix assembled at [wmag]. *)
Theorem negated_magnitude_conjugates_the_matrix {F : Type} `{ScalarLaws F}
    (mtx_m mtx_k mtx_s mtx_r : loc) (oM : obj F) (K S R : spmatrix F)
    (n : nat) (wmag : F) (s : state F) :
  holds mtx_m mtx_k mtx_s mtx_r oM (RealMat K) (RealMat S) (RealMat R) s ->
  shape K = (n, n) -> shape S = (n, n) -> shape R = (n, n) ->
  exists a A s1 a' A' s2,
    assemble mtx_m mtx_k mtx_s mtx_r wmag s = (Ok (a, mtx_m), s1) /\
    st_heap s1 !! a = Some (CplxMat A) /\
    assemble mtx_m mtx_k mtx_s mtx_r (sopp wmag) s = (Ok (a', mtx_m), s2) /\
    st_heap s2 !! a' = Some (CplxMat A') /\
    A' = sp_conj A.
Proof.
  intros Hs HK HS HR.
  destruct (mtx_a_exact K S R wmag) as (A & HA & Hshape & Hent); [congruence..|].
  destruct (mtx_a_exact K S R (sopp wmag)) as (A' & HA' & Hshape' & Hent');
    [congruence..|].
  pose proof (assemble_run mtx_m mtx_k mtx_s mtx_r _ _ _ _ wmag s Hs) as Hrun.
  rewrite HA in Hrun. destruct Hrun as (a & s1 & Hrun & _ & Ha & _).
  pose proof (assemble_run mtx_m mtx_k mtx_s mtx_r _ _ _ _ (sopp wmag) s Hs)
    as Hrun'.
  rewrite HA' in Hrun'. destruct Hrun' as (a' & s2 & Hrun' & _ & Ha' & _).
  exists a, A, s1, a', A', s2. repeat split; try done.
  destruct A as [sh ent], A' as [sh' ent']. unfold sp_conj. simpl in *.
  f_equal; [congruence|].
  apply map_eq. intros [i j].
  by rewrite lookup_fmap, Hent, Hent', canon_conj, a_value_opp.
Qed.

Lemma negated_magnitude_conjugates_the_matrix_witness :
  exists a A s1 a' A' s2,
    assemble 1 2 3 4 3%Z exact_store = (Ok (a, 1%positive), s1) /\
    st_heap s1 !! a = Some (CplxMat A) /\
    assemble 1 2 3 4 (sopp 3%Z) exact_store = (Ok (a', 1%positive), s2) /\
    st_heap s2 !! a' = Some (CplxMat A') /\
    A' = sp_conj A.
Proof.
  refine (negated_magnitude_conjugates_the_matrix 1 2 3 4 (RealMat identity2)
            identity2 identity2 rotation2 2 3%Z exact_store _ _ _ _).
  - repeat split; reflexivity.
  - reflexivity.
  - reflexivity.
  - reflexivity.
Defined.

(** X8. Symmetric M, K, S and antisymmetric R, all square: the four
    symmetry checks of lines 325-328 return, and each prints exactly zero,
    in the order M, K, S, R after the heading. *)
Theorem symmetric_blocks_pass_the_checks {F : Type} `{ScalarLaws F}
    (mtx_m mtx_k mtx_s mtx_r : loc) (M K S R : spmatrix F) (n : nat)
    (s : state F) :
  holds mtx_m mtx_k mtx_s mtx_r (RealMat M) (RealMat K) (RealMat S) (RealMat R) s ->
  shape M = (n, n) -> shape K = (n, n) -> shape S = (n, n) -> shape R = (n, n) ->
  (forall i j, mat_get M i j = mat_get M j i) ->
  (forall i j, mat_get K i j = mat_get K j i) ->
  (forall i j, mat_get S i j = mat_get S j i) ->
  (forall i j, mat_get R i j = sopp (mat_get R j i)) ->
  exists s',
    symmetry_checks mtx_m mtx_k mtx_s mtx_r s = (Ok tt, s') /\
    st_trace s'
    = st_trace s ++ [EvOutput "symmetry checks of real blocks:" [];
                     EvOutput "M - M^T:" [szero];
                     EvOutput "K - K^T:" [szero];
                     EvOutput "S - S^T:" [szero];
                     EvOutput "R + R^T:" [szero]].
Proof.
  intros Hs HM HK HS HR HMs HKs HSs HRa.
  destruct (symmetry_checks_run mtx_m mtx_k mtx_s mtx_r _ _ _ _ s Hs)
    as (s' & Hrun & _ & Htr).
  assert (forall m : spmatrix F, shape m = (n, n) ->
            (forall i j, mat_get m i j = mat_get m j i) ->
            max_diff_of (RealMat m) (obj_T (RealMat m)) = Ok szero) as Hsym.
  { intros m Hm Hmsym. apply max_diff_of_equal.
    - simpl. by rewrite Hm.
    - intros i j. by rewrite mat_get_T. }
  assert (max_diff_of (RealMat R) (obj_neg (obj_T (RealMat R))) = Ok szero)
    as Hanti.
  { apply max_diff_of_equal.
    - simpl. by rewrite HR.
    - intros i j. by rewrite mat_get_neg_T. }
  unfold checks_outcome in *.
  rewrite !Hsym, Hanti in * by done. simpl in *.
  by exists s'.
Qed.

Lemma symmetric_blocks_pass_the_checks_witness :
  exists s',
    symmetry_checks 1 2 3 4 exact_store = (Ok tt, s') /\
    st_trace s'
    = st_trace exact_store ++ [EvOutput "symmetry checks of real blocks:" [];
                               EvOutput "M - M^T:" [0%Z];
                               EvOutput "K - K^T:" [0%Z];
                               EvOutput "S - S^T:" [0%Z];
                               EvOutput "R + R^T:" [0%Z]].
Proof.
  refine (symmetric_blocks_pass_the_checks 1 2 3 4 identity2 identity2
            identity2 rotation2 2 exact_store _ _ _ _ _ _ _ _ _).
  - repeat split; reflexivity.
  - reflexivity.
  - reflexivity.
  - reflexivity.
  - reflexivity.
  - apply symmetric_of_T. reflexivity.
  - apply symmetric_of_T. reflexivity.
  - apply symmetric_of_T. reflexivity.
  - apply antisymmetric_of_T. reflexivity.
Defined.

(* ===================================================================== *)
(** ** The values of a record and the names of the log *)
(* ===================================================================== *)

Lemma log_data_names_count (opts : options) :
  length (concat (log_data_names opts))
  = 2 * Z.to_nat (n_eigs opts) + (if log_std_waves opts then 2 else 0).
Proof.
  unfold log_data_names, log_extra_names, py_range. simpl.
  rewrite !length_app, !length_fmap, !length_seq.
  destruct (log_std_waves opts); simpl; lia.
Qed.

Lemma record_out_count {F} `{Scalar F} (opts : options) (cp cs wmag : F)
    (eigs : list F) :
  length (record_out opts cp cs wmag eigs)
  = 2 * length eigs + (if log_std_waves opts then 2 else 0).
Proof.
  unfold record_out, np_sqrt. rewrite !length_app, length_fmap.
  destruct (log_std_waves opts); simpl; lia.
Qed.

(** X9. A step on square blocks in which the solver returns: the step calls
    [log] once, and it passes as many values as the log was given names
    (lines 351-352) exactly when the solver returned [max(n_eigs, 0)]
    eigenvalues, [range(n_eigs)] being empty for a negative [n_eigs]; a
    solver that returns fewer (or more) makes the call of [log] disagree
    with the names of the log. *)
Theorem log_values_match_names_iff_n_eigs_returned {F : Type} `{Scalar F}
    eig_solver make_full_vec opts (mtx_m mtx_k mtx_s mtx_r : loc)
    (wdir : list F) cp cs (oM : obj F) (K S R : spmatrix F) (n : nat)
    (iv : nat) (wmag : F) (A : obj F) eigs svecs (s : state F) :
  holds mtx_m mtx_k mtx_s mtx_r oM (RealMat K) (RealMat S) (RealMat R) s ->
  shape K = (n, n) -> shape S = (n, n) -> shape R = (n, n) ->
  mtx_a_of (RealMat K) (RealMat S) (RealMat R) wmag = Ok A ->
  eig_solver A oM (n_eigs opts) (negb (eigs_only opts)) = Ok (eigs, svecs) ->
  exists new out,
    st_trace (step eig_solver make_full_vec opts mtx_m mtx_k mtx_s mtx_r
                wdir cp cs iv wmag s).2 = st_trace s ++ new /\
    log_records new = [(out, [wmag; wmag])] /\
    (length out = length (concat (log_data_names opts))
     <-> Z.of_nat (length eigs) = Z.max (n_eigs opts) 0).
Proof.
  intros Hs HK HS HR HA Hsolve.
  destruct (step_log_record eig_solver make_full_vec opts mtx_m mtx_k mtx_s
              mtx_r wdir cp cs oM K S R n iv wmag A eigs svecs s)
    as (new & Htr & Hlog); try done.
  exists new, (record_out opts cp cs wmag eigs).
  split; [done|]. split; [done|].
  rewrite record_out_count, log_data_names_count. lia.
Qed.

(** Two eigenvalues requested of a solver that returns one, and that
    returns no eigenvector although they are asked for: the step raises
    after the call of [log], which has two values for four names. *)
Lemma log_values_match_names_iff_n_eigs_returned_witness :
  let solver := fun (_ _ : obj float) (_ : Z) (_ : bool) =>
                  Ok ([52%float], @nil (list (complex float))) in
  let opts := Options 2 false false in
  exists new out,
    st_trace (step solver (fun v => v) opts 1 2 3 4 [1%float] 0%float 0%float
                0 10%float float_store).2 = st_trace float_store ++ new /\
    log_records new = [(out, [10%float; 10%float])] /\
    (length out = length (concat (log_data_names opts))
     <-> Z.of_nat (length [52%float]) = Z.max (n_eigs opts) 0).
Proof.
  refine (log_values_match_names_iff_n_eigs_returned
            (fun _ _ _ _ => Ok ([52%float], []))
            (fun v => v) (Options 2 false false) 1 2 3 4 [1%float] 0%float
            0%float (RealMat (block1 2)) (block1 4) (block1 1) empty1 1
            0 10%float
            (CplxMat (SpMatrix (1, 1)
                        (list_to_map [((0, 0), Cx 104%float 0%float)])))
            [52%float] [] float_store _ _ _ _ _ _).
  - repeat split; reflexivity.
  - reflexivity.
  - reflexivity.
  - reflexivity.
  - vm_compute. reflexivity.
  - reflexivity.
Defined.


(* ===================================================================== *)
(** ** The diagnostic of real float64 matrices *)
(* ===================================================================== *)

Section FloatDiagnostic.
Open Scope float_scope.






End FloatDiagnostic.



(* ===================================================================== *)
(** ** The diagnostic in exact integer arithmetic *)
(* ===================================================================== *)

Section IntegerDiagnostic.
Open Scope Z_scope.

Lemma fold_max_bounds (l : list Z) (x : Z) :
  x <= fold_left Z.max l x /\
  Forall (fun y => y <= fold_left Z.max l x) l /\
  (fold_left Z.max l x = x \/ fold_left Z.max l x ∈ l).
Proof.
  revert x. induction l as [|y l IH]; intros x; simpl.
  - split; [lia|]. split; [constructor|by left].
  - destruct (IH (Z.max x y)) as (Hx & Hl & Hin).
    split; [lia|]. split.
    + constructor; [lia|done].
    + destruct Hin as [Heq|Hin].
      * destruct (Z.max_spec x y) as [[_ Hm]|[_ Hm]]; rewrite Hm in *.
        -- right. rewrite Heq. by left.
        -- by left.
      * right. by right.
Qed.
End IntegerDiagnostic.

(** X11. In exact integer arithmetic, for two real matrices of one shape,
    [_max_diff_csr] returns the largest absolute entrywise difference: it
    bounds [|mtx1[i,j] - mtx2[i,j]|] for all [i], [j], and it is zero or the
    absolute difference at some place. *)
Theorem diagnostic_is_the_largest_difference (mtx1 mtx2 : loc)
    (a b : spmatrix Z) (s : state Z) :
  st_heap s !! mtx1 = Some (RealMat a) ->
  st_heap s !! mtx2 = Some (RealMat b) ->
  shape a = shape b ->
  exists v s',
    _max_diff_csr mtx1 mtx2 s = (Ok v, s') /\
    (forall i j, (Z.abs (mat_get a i j - mat_get b i j) <= v)%Z) /\
    (v = 0%Z \/ exists i j, v = Z.abs (mat_get a i j - mat_get b i j)).
Proof.
  intros Hl1 Hl2 Hshape.
  destruct (max_diff_csr_run mtx1 mtx2 _ _ s Hl1 Hl2) as (s' & Hrun & _).
  unfold max_diff_of, obj_sub, obj_binop, sp_sub in Hrun.
  rewrite sp_binop_Ok in Hrun by done.
  set (d := SpMatrix (shape a) (merge (binop_entry dsub) (entries a) (entries b)))
    in *.
  assert (forall i j, entries d !! (i, j)
            = canon (mat_get a i j - mat_get b i j)%Z) as Hent.
  { intros i j. unfold d. simpl.
    rewrite lookup_merge, diag_None_binop_entry.
    by rewrite (binop_entry_canon real_nonzero). }
  assert (forall i j r, entries d !! (i, j) = Some r ->
            r = (mat_get a i j - mat_get b i j)%Z) as Hsome.
  { intros i j r. rewrite Hent. unfold canon.
    destruct (dnonzero _); [by intros [= <-]|done]. }
  assert (forall i j, entries d !! (i, j) = None ->
            (mat_get a i j - mat_get b i j)%Z = 0%Z) as Hnone.
  { intros i j. rewrite Hent. unfold canon.
    destruct (dnonzero _) eqn:Hnz; [done|]. intros _.
    by apply (s_nonzero (F:=Z)) in Hnz. }
  simpl in Hrun. unfold mat_data in *.
  destruct (map_to_list (entries d)) as [|[[i0 j0] x] l] eqn:Hlist.
  - apply map_to_list_empty_iff in Hlist.
    exists 0%Z, s'. split; [done|]. split; [|by left].
    intros i j. rewrite (Hnone i j); [done|]. by rewrite Hlist.
  - simpl in Hrun. eexists _, s'. split; [exact Hrun|].
    destruct (fold_max_bounds (Z.abs <$> l.*2) (Z.abs x)) as (Hx & Hl & Hin).
    set (v := fold_left Z.max (Z.abs <$> l.*2) (Z.abs x)) in *.
    assert (forall i j r, entries d !! (i, j) = Some r -> (Z.abs r <= v)%Z)
      as Hbound.
    { intros i j r Hr. apply elem_of_map_to_list in Hr.
      rewrite Hlist in Hr. apply elem_of_cons in Hr as [[= _ _ ->]|Hr]; [done|].
      rewrite Forall_forall in Hl. apply Hl.
      apply list_elem_of_fmap. exists r. split; [done|].
      apply list_elem_of_fmap. by exists ((i, j), r). }
    split.
    + intros i j. destruct (entries d !! (i, j)) as [r|] eqn:Hr.
      * rewrite <- (Hsome i j r Hr). by eapply Hbound.
      * rewrite (Hnone i j Hr).
        transitivity (Z.abs x); [apply Z.abs_nonneg|exact Hx].
    + right. destruct Hin as [Heq|Hin].
      * exists i0, j0. transitivity (Z.abs x); [exact Heq|]. f_equal.
        apply Hsome. apply elem_of_map_to_list. rewrite Hlist. by left.
      * apply list_elem_of_fmap in Hin as (r & Hv & Hin).
        apply list_elem_of_fmap in Hin as ([[i j] r'] & -> & Hin).
        exists i, j. transitivity (Z.abs r'); [exact Hv|]. f_equal.
        apply Hsome. apply elem_of_map_to_list. rewrite Hlist. by right.
Qed.

Lemma diagnostic_is_the_largest_difference_witness :
  exists v s',
    _max_diff_csr 2 4 exact_store = (Ok v, s') /\
    (forall i j,
       (Z.abs (mat_get identity2 i j - mat_get rotation2 i j) <= v)%Z) /\
    (v = 0%Z \/
     exists i j, v = Z.abs (mat_get identity2 i j - mat_get rotation2 i j)).
Proof.
  refine (diagnostic_is_the_largest_difference 2 4 identity2 rotation2
            exact_store _ _ _).
  - reflexivity.
  - reflexivity.
  - reflexivity.
Defined.

(* ===================================================================== *)
(** ** A NaN in the wave direction *)
(* ===================================================================== *)

Section NanDirection.
Open Scope float_scope.

Lemma is_nan_eq (x : float) : is_nan x = true -> x = nan.
Proof.
  unfold is_nan. rewrite FloatAxioms.eqb_spec. intros Hx.
  apply Prim2SF_inj. change (Prim2SF nan) with S754_nan.
  destruct (Prim2SF x) as [s|s| |s m e]; [by destruct s|by destruct s|done|].
  unfold SFeqb, SFcompare in Hx.
  rewrite Z.compare_refl, Pos.compare_cont_refl in Hx. by destruct s.
Qed.

Lemma add_nan_l (y : float) : nan + y = nan.
Proof.
  apply Prim2SF_inj. rewrite add_spec.
  change (Prim2SF nan) with S754_nan. by destruct (Prim2SF y).
Qed.

Lemma add_nan_r (y : float) : y + nan = nan.
Proof.
  apply Prim2SF_inj. rewrite add_spec.
  change (Prim2SF nan) with S754_nan. by destruct (Prim2SF y).
Qed.

Lemma div_nan_r (y : float) : y / nan = nan.
Proof.
  apply Prim2SF_inj. rewrite div_spec.
  change (Prim2SF nan) with S754_nan. by destruct (Prim2SF y).
Qed.

Lemma sum_squares_from_nan (x : list float) :
  fold_left (fun acc xi => acc + xi * xi) x nan = nan.
Proof.
  induction x as [|xi x IH]; [done|]. simpl. by rewrite add_nan_l.
Qed.

Lemma sum_squares_with_nan (x : list float) (acc : float) :
  nan ∈ x -> fold_left (fun acc xi => acc + xi * xi) x acc = nan.
Proof.
  intros Hin. revert acc.
  induction x as [|xi x IH]; intros acc; [by apply elem_of_nil in Hin|].
  simpl. apply elem_of_cons in Hin as [<-|Hin].
  - change (nan * nan) with nan. rewrite add_nan_r.
    apply sum_squares_from_nan.
  - by apply IH.
Qed.
End NanDirection.

(** X12. A NaN among the components that are kept: the norm is NaN and
    every component of the normalised direction is NaN; nothing is raised. *)
Theorem nan_component_spoils_the_direction (wave_dir : list float) (dim i : nat)
    (x : float) :
  take dim wave_dir !! i = Some x ->
  PrimFloat.is_nan x = true ->
  PrimFloat.is_nan (np_norm (take dim wave_dir)) = true /\
  normalize_wave_dir wave_dir dim
  = replicate (length (take dim wave_dir)) nan.
Proof.
  intros Hi Hx. apply is_nan_eq in Hx. subst x.
  assert (np_norm (take dim wave_dir) = nan) as Hnorm.
  { unfold np_norm.
    rewrite sum_squares_with_nan by (by eapply list_elem_of_lookup_2).
    reflexivity. }
  split; [by rewrite Hnorm|].
  unfold normalize_wave_dir. rewrite Hnorm.
  generalize (take dim wave_dir). intros l.
  induction l as [|y l IH]; [done|].
  rewrite fmap_cons, IH. simpl. by rewrite div_nan_r.
Qed.

Lemma nan_component_spoils_the_direction_witness :
  PrimFloat.is_nan (np_norm (take 3 [1; nan; 0]%float)) = true /\
  normalize_wave_dir [1; nan; 0]%float 3
  = replicate (length (take 3 [1; nan; 0]%float)) nan.
Proof.
  apply (nan_component_spoils_the_direction [1; nan; 0]%float 3 1 nan).
  - reflexivity.
  - vm_compute. reflexivity.
Defined.


(* ===================================================================== *)
(** ** The values of the options *)
(* ===================================================================== *)

Section Splitting.

Lemma split_on_not_nil sep s : split_on sep s <> [].
Proof.
  destruct s as [|c s]; simpl; [done|].
  destruct (Ascii.eqb c sep); [done|]. by destruct (split_on sep s).
Qed.

(** As many pieces as separators, plus one. *)
Lemma split_on_length sep s :
  length (split_on sep s) = Datatypes.S (count_char sep s).
Proof.
  induction s as [|c s IH]; simpl; [done|].
  destruct (Ascii.eqb c sep); simpl; [by rewrite IH|].
  destruct (split_on sep s) as [|piece pieces] eqn:Hs; simpl in *; [done|].
  done.
Qed.

(** A first piece without the separator, then a separator. *)
Lemma split_on_first sep (a t : string) :
  count_char sep a = 0 ->
  split_on sep (a +:+ String sep t) = a :: split_on sep t.
Proof.
  induction a as [|c a IH]; simpl.
  - intros _. by rewrite Ascii.eqb_refl.
  - destruct (Ascii.eqb c sep); [done|]. simpl. intros Ha.
    by rewrite (IH Ha).
Qed.

(** A string without the separator is its only piece. *)
Lemma split_on_single sep (a : string) :
  count_char sep a = 0 -> split_on sep a = [a].
Proof.
  induction a as [|c a IH]; simpl; [done|].
  destruct (Ascii.eqb c sep); [done|]. simpl. intros Ha.
  by rewrite (IH Ha).
Qed.
End Splitting.

Section CommandLineFacts.
Context {F : Type}.
Variable py_float : string -> result F.
Variable py_int : string -> result Z.

Lemma map_result_Ok {A B} (f : A -> result B) (l : list A) (ys : list B) :
  map_result f l = Ok ys <-> Forall2 (fun x y => f x = Ok y) l ys.
Proof.
  revert ys. induction l as [|x l IH]; intros ys; simpl.
  - split.
    + intros [= <-]. constructor.
    + intros Hall. by apply Forall2_nil_inv_l in Hall as ->.
  - split.
    + destruct (f x) as [y|e] eqn:Hx; [|done].
      destruct (map_result f l) as [ys'|e] eqn:Hl; [|done].
      intros [= <-]. constructor; [done|]. by apply IH.
    + intros Hall. apply Forall2_cons_inv_l in Hall as (y & ys' & Hy & Hys & ->).
      rewrite Hy. apply IH in Hys. by rewrite Hys.
Qed.
End CommandLineFacts.

(** X13. A value like [--pars], [--unit-multipliers] or [--wave-dir]: the
    conversion returns exactly when [float] accepts every piece between the
    commas, empty pieces included, and then gives the numbers of the pieces
    in order: one more number than the value has commas. *)
Theorem float_list_has_one_number_per_piece {F : Type}
    (py_float : string -> result F) (s : string) (values : list F) :
  parse_floats py_float s = Ok values
  <-> Forall2 (fun piece v => py_float piece = Ok v) (split_on comma s) values
      /\ length values = Datatypes.S (count_char comma s).
Proof.
  unfold parse_floats. rewrite map_result_Ok. split.
  - intros Hall. split; [done|].
    by rewrite <- (Forall2_length _ _ _ Hall), split_on_length.
  - by intros [Hall _].
Qed.

(** X14. A wave range of three pieces that convert gives its start, stop
    and count; whatever follows a third comma is ignored, without an error
    and without being converted. *)
Theorem wave_range_ignores_what_follows_the_count {F : Type}
    (py_float : string -> result F) (py_int : string -> result Z)
    (a b c rest : string) (start stop : F) (count : Z) :
  count_char comma a = 0 -> count_char comma b = 0 -> count_char comma c = 0 ->
  py_float a = Ok start -> py_float b = Ok stop -> py_int c = Ok count ->
  parse_wave_range py_float py_int (a +:+ String comma (b +:+ String comma c))
  = Ok (start, stop, count) /\
  parse_wave_range py_float py_int
    (a +:+ String comma (b +:+ String comma (c +:+ String comma rest)))
  = Ok (start, stop, count).
Proof.
  intros Ha Hb Hc Hfa Hfb Hic. unfold parse_wave_range, item.
  rewrite !split_on_first by done.
  rewrite (split_on_single comma c Hc). simpl.
  by rewrite Hfa, Hfb, Hic.
Qed.

Lemma wave_range_ignores_what_follows_the_count_witness :
  let py_float := fun s : string =>
    if decide (s = "10") then Ok 10%float
    else if decide (s = "100") then Ok 100%float else Raise ValueError in
  let py_int := fun s : string =>
    if decide (s = "10") then Ok 10%Z else Raise ValueError in
  parse_wave_range py_float py_int
    ("10" +:+ String comma ("100" +:+ String comma "10"))
  = Ok (10%float, 100%float, 10%Z) /\
  parse_wave_range py_float py_int
    ("10" +:+ String comma ("100" +:+ String comma ("10" +:+ String comma "x,y")))
  = Ok (10%float, 100%float, 10%Z).
Proof.
  refine (wave_range_ignores_what_follows_the_count _ _ "10" "100" "10" "x,y"
            10%float 100%float 10%Z _ _ _ _ _ _); reflexivity.
Defined.

(** X15. A wave range of fewer than three pieces: with one piece that
    converts, or two pieces that convert, the conversion raises [IndexError];
    a first piece that [float] refuses raises the error of [float] before. *)
Theorem wave_range_needs_three_pieces {F : Type}
    (py_float : string -> result F) (py_int : string -> result Z)
    (a b : string) (start stop : F) :
  count_char comma a = 0 -> count_char comma b = 0 ->
  py_float a = Ok start -> py_float b = Ok stop ->
  parse_wave_range py_float py_int a = Raise IndexError /\
  parse_wave_range py_float py_int (a +:+ String comma b) = Raise IndexError /\
  (forall (bad : string) e, count_char comma bad = 0 -> py_float bad = Raise e ->
     parse_wave_range py_float py_int bad = Raise e).
Proof.
  intros Ha Hb Hfa Hfb. unfold parse_wave_range, item.
  rewrite split_on_first by done.
  rewrite (split_on_single comma a Ha), (split_on_single comma b Hb). simpl.
  rewrite Hfa, Hfb. split; [done|]. split; [done|].
  intros bad e Hbad Hfbad. rewrite (split_on_single comma bad Hbad). simpl.
  by rewrite Hfbad.
Qed.

Lemma wave_range_needs_three_pieces_witness :
  let py_float := fun s : string =>
    if decide (s = "10") then Ok 10%float
    else if decide (s = "100") then Ok 100%float else Raise ValueError in
  let py_int := fun s : string =>
    if decide (s = "10") then Ok 10%Z else Raise ValueError in
  parse_wave_range py_float py_int "10" = Raise IndexError /\
  parse_wave_range py_float py_int ("10" +:+ String comma "100")
  = Raise IndexError /\
  (forall (bad : string) e, count_char comma bad = 0 -> py_float bad = Raise e ->
     parse_wave_range py_float py_int bad = Raise e).
Proof.
  refine (wave_range_needs_three_pieces _ _ "10" "100" 10%float 100%float
            _ _ _ _); reflexivity.
Defined.

(* ===================================================================== *)
(** ** The eigenshape files of a sweep *)
(* ===================================================================== *)

Section SavedSteps.
Context {F : Type} `{Scalar F}.
Variable eig_solver :
  obj F -> obj F -> Z -> bool -> result (list F * list (list (complex F))).
Variable make_full_vec : list (complex F) -> list (complex F).
Variable opts : options.
Variable wdir : list F.
Variables cp cs : F.
Variable oM : obj F.
Variables K S R : spmatrix F.
Variable n : nat.
Hypothesis shape_K : shape K = (n, n).
Hypothesis shape_S : shape S = (n, n).
Hypothesis shape_R : shape R = (n, n).

#[local] Abbreviation returns_at :=
  (solver_returns eig_solver opts oM (RealMat K) (RealMat S) (RealMat R)).

Lemma saved_steps_fmap {X} (g : X -> event F) (l : list X) :
  (forall x, match g x with EvSaveState _ _ => False | _ => True end) ->
  saved_steps (g <$> l) = [].
Proof.
  intros Hg. induction l as [|x l IH]; [done|]. simpl.
  specialize (Hg x). unfold saved_steps in *. simpl.
  by destruct (g x).
Qed.

Lemma step_saved_steps iv wmag :
  returns_at wmag ->
  exists ev,
    step_outcome eig_solver make_full_vec opts wdir cp cs oM
      (RealMat K) (RealMat S) (RealMat R) iv wmag = (ev, Ok tt) /\
    saved_steps ev = if eigs_only opts then [] else [iv].
Proof.
  intros Hret.
  destruct (step_outcome_blocks eig_solver make_full_vec opts wdir cp cs oM
              K S R n shape_K shape_S shape_R wmag)
    as (A & d & HA & _ & _ & Hstep).
  destruct (Hret _ HA) as (eigs & svecs & Hsolve & Hlen).
  rewrite Hstep. unfold solve_outcome. rewrite Hsolve.
  destruct (eigs_only opts) eqn:Ho.
  - eexists. split; [reflexivity|]. done.
  - unfold save_outcome. rewrite length_fmap.
    rewrite decide_True by auto. simpl.
    eexists. split; [reflexivity|].
    unfold saved_steps. simpl. rewrite !omap_app.
    pose proof (saved_steps_fmap EvMakeFullVec svecs) as H1.
    pose proof (saved_steps_fmap EvSetFull
                  (take (length eigs) (make_full_vec <$> svecs))) as H2.
    unfold saved_steps in H1, H2. rewrite H1, H2 by done. done.
Qed.

Lemma loop_saved_steps (l : list F) (i : nat) :
  Forall returns_at l ->
  exists ev,
    loop_outcome eig_solver make_full_vec opts wdir cp cs oM
      (RealMat K) (RealMat S) (RealMat R) (enumerate_from i l) = (ev, Ok tt) /\
    saved_steps ev = if eigs_only opts then [] else seq i (length l).
Proof.
  intros Hl. revert i. induction Hl as [|wmag l Hw _ IH]; intros i.
  - exists []. split; [done|]. by destruct (eigs_only opts).
  - rewrite enumerate_from_cons. simpl.
    destruct (step_saved_steps i wmag Hw) as (ev & -> & Hev).
    destruct (IH (Datatypes.S i)) as (ev' & -> & Hev').
    simpl. eexists. split; [reflexivity|].
    unfold saved_steps in *. rewrite omap_app, Hev, Hev'.
    by destruct (eigs_only opts).
Qed.
End SavedSteps.

(** X16. A sweep in which the solver returns at every magnitude, on square
    blocks: with eigenvectors the states saved are numbered by the step: one
    call of [save_state] per magnitude, with the numbers 0, 1, 2, ... in
    order; with [--eigs-only] no state is saved. *)
Theorem eigenshapes_are_numbered_by_step {F : Type} `{Scalar F}
    eig_solver make_full_vec opts (mtx_m mtx_k mtx_s mtx_r : loc)
    (wdir : list F) cp cs (oM : obj F) (K S R : spmatrix F) (n : nat)
    (wmag_stepper : list F) (s : state F) :
  holds mtx_m mtx_k mtx_s mtx_r oM (RealMat K) (RealMat S) (RealMat R) s ->
  shape K = (n, n) -> shape S = (n, n) -> shape R = (n, n) ->
  Forall (solver_returns eig_solver opts oM (RealMat K) (RealMat S) (RealMat R))
    wmag_stepper ->
  exists s' new,
    sweep eig_solver make_full_vec opts mtx_m mtx_k mtx_s mtx_r wdir cp cs
      wmag_stepper s = (Ok tt, s') /\
    st_trace s' = st_trace s ++ new /\
    saved_steps new
    = if eigs_only opts then [] else seq 0 (length wmag_stepper).
Proof.
  intros Hs HK HS HR Hret.
  destruct (loop_saved_steps eig_solver make_full_vec opts wdir cp cs oM
              K S R n HK HS HR wmag_stepper 0 Hret) as (ev & Hloop & Hev).
  destruct (sweep_run eig_solver make_full_vec opts mtx_m mtx_k mtx_s mtx_r
              wdir cp cs _ _ _ _ wmag_stepper s Hs) as (s' & Hrun & _ & Htr).
  unfold sweep_outcome, enumerate in Hrun, Htr.
  change (zip (seq 0 (length wmag_stepper)) wmag_stepper)
    with (enumerate_from 0 wmag_stepper) in Hrun, Htr.
  rewrite Hloop in Hrun, Htr. simpl in Hrun, Htr.
  exists s', (ev ++ [EvLogSaveFigure; EvLogFinished]).
  split; [done|]. split; [done|].
  unfold saved_steps in *. rewrite omap_app, Hev. simpl.
  by rewrite app_nil_r.
Qed.

Lemma eigenshapes_are_numbered_by_step_witness :
  let opts := Options 1 false false in
  exists s' new,
    sweep (solver_1x1 None) (fun v => v) opts 1 2 3 4 [1%float] 0%float 0%float
      [10; 20; 30]%float float_store = (Ok tt, s') /\
    st_trace s' = st_trace float_store ++ new /\
    saved_steps new
    = if eigs_only opts then [] else seq 0 (length [10; 20; 30]%float).
Proof.
  refine (eigenshapes_are_numbered_by_step (solver_1x1 None) (fun v => v)
            (Options 1 false false) 1 2 3 4 [1%float] 0%float 0%float
            (RealMat (block1 2)) (block1 4) (block1 1) empty1 1
            [10; 20; 30]%float float_store _ _ _ _ _).
  - repeat split; reflexivity.
  - reflexivity.
  - reflexivity.
  - reflexivity.
  - repeat constructor; intros A HA; vm_compute in HA; injection HA as <-;
      (eexists _, _; split; [vm_compute; reflexivity|simpl; lia]).
Defined.
